(** * Integrated online board-game platform: the roulette plugin, the token
      store of the session oracle, the user store and the discovery route.

    The development embeds the Python sources

      - [games/roulette_game/game.py]  (class [RouletteGame], [register_game]),
      - [my_modules/platform/auth.py]  ([init_users], [create_token],
        [verify_token], [revoke_token]),
      - [app.py]                       (route [/available_games]),

    as Rocq functions with explicit state passing, and proves the properties
    the specification states about them. *)

From Stdlib Require Import ZArith.
From stdpp Require Import gmap strings list fin_maps sorting pretty.

Local Open Scope list_scope.

(** ** Python values

    The values that travel through the modelled code: what [json.load] and
    Socket.IO payloads produce, plus class objects (a registry entry holds
    the game class under the key ['class']).  A [dict] whose iteration order
    nobody reads is a [gmap]. *)

#[warnings="-register-all"]
Inductive pyval : Type :=
| PNone
| PBool (b : bool)
| PInt (z : Z)
| PFloat (bits : Z)          (* an IEEE-754 double, given by its 64 bits *)
| PStr (s : string)
| PList (l : list pyval)
| PDict (d : gmap string pyval)
| PClass (qualname : string).

(** Exceptions the modelled code can raise. *)
Inductive pyexn : Type :=
| KeyError (key : string)
| AttributeError (what : string)
| TypeError (what : string)
| UnicodeDecodeError.

(** A call either returns or raises. *)
Inductive outcome (A : Type) : Type :=
| Return (a : A)
| Raise (e : pyexn).
Arguments Return {A} a.
Arguments Raise {A} e.

Definition bind {A B} (m : outcome A) (k : A → outcome B) : outcome B :=
  match m with
  | Return a => k a
  | Raise e => Raise e
  end.

Notation "'let!' x ':=' m 'in' k" := (bind m (λ x, k))
  (at level 10, x name, m at level 100, k at level 200, only parsing).

(** [d[key]] on a dict: [KeyError] when the key is missing. *)
Definition getitem (d : gmap string pyval) (key : string) : outcome pyval :=
  match d !! key with
  | Some v => Return v
  | None => Raise (KeyError key)
  end.

(** [v.get(key, dflt)]: only a dict has the method. *)
Definition py_get (v : pyval) (key : string) (dflt : pyval) : outcome pyval :=
  match v with
  | PDict d => Return (default dflt (d !! key))
  | _ => Raise (AttributeError "get")
  end.

(** The truth value of a value ([not v] is its negation): [None], [False],
    zero, and the empty string, list and dict are false.  A float is zero
    when its bits are those of [0.0] or [-0.0]. *)
Definition py_truthy (v : pyval) : bool :=
  match v with
  | PNone => false
  | PBool b => b
  | PInt z => negb (bool_decide (z = 0%Z))
  | PFloat bits =>
      negb (bool_decide (bits = 0%Z) || bool_decide (bits = 2 ^ 63)%Z)
  | PStr s => negb (bool_decide (s = ""))
  | PList l => match l with [] => false | _ :: _ => true end
  | PDict d => negb (bool_decide (d = ∅))
  | PClass _ => true
  end.

(** What [json.dump] and [jsonify] can write: everything but a class
    object, at any depth (the keys of a [PDict] are strings already). *)
Fixpoint serialisable (v : pyval) : bool :=
  match v with
  | PClass _ => false
  | PList l => forallb serialisable l
  | PDict d => map_fold (λ _ x acc, serialisable x && acc) true d
  | _ => true
  end.

(** [jsonify(v)]: the JSON body of the response, or the [TypeError] of the
    encoder on a value it cannot write. *)
Definition jsonify (v : pyval) : outcome pyval :=
  if serialisable v then Return v
  else Raise (TypeError "not JSON serializable").

(** ** A Python [dict] whose iteration order is observed

    [RouletteGame.players] is read with [next(iter(...))], so its insertion
    order matters: the dict is the list of its items in insertion order
    (what CPython guarantees since 3.7).  Deleting a key keeps the order of
    the others; assigning a new key appends it; assigning an existing key
    replaces the value in place. *)

Module OrderedDict.
Section ordered_dict.
Context {V : Type}.
Implicit Types (d : list (string * V)) (k : string).

Definition keys d : list string := d.*1.

(** [k in d] *)
Definition contains k d : bool := bool_decide (k ∈ keys d).

(** [del d[k]] (the callers test [k in d] first) *)
Definition delitem k d : list (string * V) :=
  filter (λ kv, kv.1 ≠ k) d.

(** [d[k] = v] *)
Definition setitem k (v : V) d : list (string * V) :=
  if contains k d
  then (λ kv, if decide (kv.1 = k) then (k, v) else kv) <$> d
  else d ++ [(k, v)].

(** [d.get(k)] *)
Definition get k d : option V :=
  (λ r, r.2.2) <$> list_find (λ kv, kv.1 = k) d.

(** [next(iter(d.keys()))]; [None] stands for [StopIteration] *)
Definition first_key d : option string := head (keys d).

(** truth value of a dict: non-empty *)
Definition truthy d : bool :=
  match d with [] => false | _ :: _ => true end.
End ordered_dict.
End OrderedDict.

(** ** games/roulette_game/game.py *)

Module Roulette.
Import OrderedDict.

(** The value stored per account: [{'ID': player_id, 'order': order}]. *)
Record player : Type := Player { ID : string; order : nat }.

(** The attributes of a [RouletteGame] instance. *)
Record RouletteGame : Type := Game {
  room_id : string;
  players : list (string * player);
  started : bool;
  host : option string;
  game_type : string;
  test_message : string
}.

Definition set_players (ps : list (string * player)) (g : RouletteGame) :=
  Game (room_id g) ps (started g) (host g) (game_type g) (test_message g).
Definition set_started (b : bool) (g : RouletteGame) :=
  Game (room_id g) (players g) b (host g) (game_type g) (test_message g).
Definition set_host (h : option string) (g : RouletteGame) :=
  Game (room_id g) (players g) (started g) h (game_type g) (test_message g).

(** Modelled from the spec: [games/base.py] ([BaseGame.__init__]) is not
    among the sources.  A new plugin instance is bound to its room and has
    no players yet; [join] tests [self.host is None] and [start] sets
    [self.started], so the base initialiser leaves no host and a game that
    is not started. *)
Definition BaseGame_init (rid : string) : RouletteGame :=
  Game rid [] false None "" "".

(** [RouletteGame.__init__] *)
Definition init (rid : string) : RouletteGame :=
  let self := BaseGame_init rid in
  Game (room_id self) (players self) (started self) (host self)
       "roulette" "Roulette游戏已初始化".

(** [RouletteGame.join]: the returned [None] is Python's [None]. *)
Definition join (self : RouletteGame) (account player_id : string)
  : option nat * RouletteGame :=
  if contains account (players self) then (None, self)
  else
    let self1 :=
      match host self with
      | None => set_host (Some account) self
      | Some _ => self
      end in
    let order := length (players self1) + 1 in
    (Some order,
     set_players (setitem account (Player player_id order) (players self1)) self1).

(** [RouletteGame.leave] *)
Definition leave (self : RouletteGame) (account : string) : RouletteGame :=
  if contains account (players self) then
    let self1 := set_players (delitem account (players self)) self in
    if bool_decide (Some account = host self1) && truthy (players self1) then
      match first_key (players self1) with
      | Some k => set_host (Some k) self1
      | None => self1      (* StopIteration: excluded by the test above *)
      end
    else self1
  else self.

(** [RouletteGame.start] *)
Definition start (self : RouletteGame) : bool * RouletteGame :=
  if bool_decide (0 < length (players self))   (* len(self.players) > 0 *)
  then (true, set_started true self)
  else (false, self).

(** [x == s] for a string literal [s]: only an equal [str] compares equal. *)
Definition eq_str (x : pyval) (s : string) : bool :=
  match x with
  | PStr s' => bool_decide (s' = s)
  | _ => false
  end.

Section handle_event.
(** Python's built-in [str()] on values that are not strings (numbers,
    lists, dicts: their printed form), which an f-string applies to its
    fields.  On a [str] the f-string inserts the string itself. *)
Variable py_str : pyval → string.

Definition fmt (v : pyval) : string :=
  match v with
  | PStr s => s
  | _ => py_str v
  end.

(** [RouletteGame.handle_event].  The method reads no attribute and
    assigns none; the instance is returned next to the result.  The line
    it prints to standard output is left out. *)
Definition handle_event (self : RouletteGame) (account : string) (data : pyval)
  : outcome (gmap string pyval) * RouletteGame :=
  (let! event_name := py_get data "event_name" PNone in
   if eq_str event_name "test_input" then
     let! event_data := py_get data "event_data" (PDict ∅) in
     let! user_input := py_get event_data "input" (PStr "") in
     let! event_data' := py_get data "event_data" (PDict ∅) in
     let! timestamp := py_get event_data' "timestamp" (PStr "") in
     Return (<["ok" := PBool true]>
             (<["msg" := PStr ("后端收到来自 " +:+ account +:+ " 的消息: "
                                +:+ fmt user_input)]>
             (<["echo" := user_input]>
             (<["timestamp" := timestamp]>
             (<["broadcast" := PBool true]> ∅)))))
   else
     Return (<["ok" := PBool false]>
             (<["msg" := PStr "未知事件类型"]>
             (<["broadcast" := PBool false]> ∅))),
   self).
End handle_event.

(** [register_game]: the catalogue entry of the plugin. *)
Definition register_game : gmap string pyval :=
  <["id" := PStr "roulette"]>
  (<["name" := PStr "Roulette"]>
  (<["description" := PStr "一个简单的测试游戏"]>
  (<["min_players" := PInt 1]>
  (<["max_players" := PInt 4]>
  (<["class" := PClass "RouletteGame"]>
  (<["url" := PStr "/roulette"]> ∅)))))).

(** *** Runs: sequences of [join] and [leave] calls on one instance *)

Inductive op : Type :=
| Join (account player_id : string)
| Leave (account : string).

Definition step (g : RouletteGame) (o : op) : RouletteGame :=
  match o with
  | Join a p => (join g a p).2
  | Leave a => leave g a
  end.

Definition run (g : RouletteGame) (ops : list op) : RouletteGame :=
  foldl step g ops.

(** What the [join] calls of a run return, in call order. *)
Fixpoint join_results (g : RouletteGame) (ops : list op) : list (option nat) :=
  match ops with
  | [] => []
  | Join a p :: r => (join g a p).1 :: join_results (step g (Join a p)) r
  | Leave a :: r => join_results (step g (Leave a)) r
  end.

(** The order numbers handed out by the successful joins of a run. *)
Definition successful_orders (g : RouletteGame) (ops : list op) : list nat :=
  omap id (join_results g ops).

(** Ghost bookkeeping: for each account, the position in the run of the
    call by which it joined (the join that returned an order number and
    that no later [leave] undid).  The clock [t] counts the calls. *)
Fixpoint join_times (g : RouletteGame) (t : nat) (tm : gmap string nat)
    (ops : list op) : gmap string nat :=
  match ops with
  | [] => tm
  | Join a p :: r =>
      join_times (step g (Join a p)) (S t)
        (match (join g a p).1 with Some _ => <[a := t]> tm | None => tm end) r
  | Leave a :: r =>
      join_times (step g (Leave a)) (S t) (delete a tm) r
  end.

Definition joined_at (rid : string) (ops : list op) (a : string) : option nat :=
  join_times (init rid) 0 ∅ ops !! a.

Definition is_join (o : op) : Prop :=
  match o with Join _ _ => True | Leave _ => False end.

Definition orders (g : RouletteGame) : list nat := order <$> (players g).*2.

(** [k] joined before [q], by the ghost clock. *)
Definition before (tm : gmap string nat) (k q : string) : Prop :=
  ∃ s sq, tm !! k = Some s ∧ tm !! q = Some sq ∧ s < sq.

(** The keys of [players] are pairwise distinct, each has a join time in
    the past, and they are listed in increasing join time. *)
Definition chronological (g : RouletteGame) (t : nat) (tm : gmap string nat)
  : Prop :=
  NoDup (keys (players g)) ∧
  Forall (λ k, ∃ s, tm !! k = Some s ∧ s < t) (keys (players g)) ∧
  StronglySorted (before tm) (keys (players g)).

(** The payloads [handle_event] answers: a dict that either names
    another event or has no ['event_data'] or a dict there. *)
Definition answerable (data : pyval) : Prop :=
  ∃ d, data = PDict d ∧
    (d !! "event_name" ≠ Some (PStr "test_input") ∨
     d !! "event_data" = None ∨
     ∃ e, d !! "event_data" = Some (PDict e)).

(** Any call on an instance: the four methods that can change it. *)
Inductive action : Type :=
| DoJoin (account player_id : string)
| DoLeave (account : string)
| DoStart
| DoEvent (account : string) (data : pyval).

Definition perform (py_str : pyval → string) (g : RouletteGame) (x : action)
  : RouletteGame :=
  match x with
  | DoJoin a p => (join g a p).2
  | DoLeave a => leave g a
  | DoStart => (start g).2
  | DoEvent a d => (handle_event py_str g a d).2
  end.

(** The stored order numbers grow along the insertion order. *)
Definition increasing_orders (g : RouletteGame) : Prop :=
  StronglySorted (λ x y, order x.2 < order y.2) (players g).

End Roulette.

(** ** my_modules/platform/auth.py *)

Module Auth.

(** *** The user store

    [users.json] holds one JSON object: account ↦ user record, a record
    being a JSON object itself (['account'], ['ID'], ['password'],
    ['room'], ...).  The file is modelled by its parsed content, [None]
    when it does not exist. *)

Definition init_users (file : option (gmap string (gmap string pyval)))
  : option (gmap string (gmap string pyval)) :=
  match file with
  | None => Some ∅                       (* json.dump({}, f); return *)
  | Some data =>
      (* for user in data.values(): user['room'] = None; json.dump(data, f) *)
      Some ((λ user, <["room" := PNone]> user) <$> data)
  end.

(** *** The token store

    A [datetime] is a number of microseconds on the clock's time line; the
    module's two global dicts make up the state. *)

Record token_info : Type := TokenInfo {
  account : string;
  created_at : Z;
  expires_at : Z
}.

Record token_store : Type := TokenStore {
  active_tokens : gmap string token_info;   (* token ↦ record *)
  user_tokens : gmap string string          (* account ↦ current token *)
}.

Definition empty_store : token_store := TokenStore ∅ ∅.

(** [timedelta(days=7)] *)
Definition seven_days : Z := 7 * 86400 * 1000000.

(** [create_token].  The result of [generate_session_token()] and the two
    readings of [datetime.now()] are inputs: [now_e] is the reading the
    expiry is computed from, [now_c] the later one stored as creation time. *)
Definition create_token (acct token : string) (now_e now_c : Z)
    (s : token_store) : string * token_store :=
  let active1 :=
    match user_tokens s !! acct with
    | Some old_token =>
        match active_tokens s !! old_token with
        | Some _ => delete old_token (active_tokens s)
        | None => active_tokens s
        end
    | None => active_tokens s
    end in
  let expires := (now_e + seven_days)%Z in
  (token,
   TokenStore (<[token := TokenInfo acct now_c expires]> active1)
              (<[acct := token]> (user_tokens s))).

(** [verify_token].  The argument is [None] when the caller has no token to
    pass (Python's [None]); [now] is the reading of [datetime.now()]. *)
Definition verify_token (token : option string) (now : Z) (s : token_store)
  : option string * token_store :=
  match token with
  | None => (None, s)
  | Some t =>
      if bool_decide (t = "") then (None, s)
      else
        match active_tokens s !! t with
        | None => (None, s)
        | Some token_info =>
            if bool_decide (expires_at token_info < now)%Z then
              let acct := account token_info in
              let active1 := delete t (active_tokens s) in
              let users1 :=
                if bool_decide (user_tokens s !! acct = Some t)
                then delete acct (user_tokens s)
                else user_tokens s in
              (None, TokenStore active1 users1)
            else (Some (account token_info), s)
        end
  end.

(** [revoke_token] *)
Definition revoke_token (token : string) (s : token_store)
  : bool * token_store :=
  match active_tokens s !! token with
  | Some token_info =>
      let acct := account token_info in
      let active1 := delete token (active_tokens s) in
      let users1 :=
        if bool_decide (user_tokens s !! acct = Some token)
        then delete acct (user_tokens s)
        else user_tokens s in
      (true, TokenStore active1 users1)
  | None => (false, s)
  end.

(** The invariant of the two dicts: the token an account maps to has a
    record, and the record names that account. *)
Definition consistent (s : token_store) : Prop :=
  ∀ acct t, user_tokens s !! acct = Some t →
    ∃ info, active_tokens s !! t = Some info ∧ account info = acct.

(** Every record is the current token of the account it names. *)
Definition current (s : token_store) : Prop :=
  ∀ t info, active_tokens s !! t = Some info →
    user_tokens s !! account info = Some t.

(** When [verify_token] has no account to return. *)
Definition no_session (token : option string) (now : Z) (s : token_store)
  : Prop :=
  match token with
  | None => True
  | Some t =>
      t = "" ∨ active_tokens s !! t = None ∨
      ∃ info, active_tokens s !! t = Some info ∧ (expires_at info < now)%Z
  end.

(** What both [verify_token] (on expiry) and [revoke_token] do to the
    store: drop the record of [t] and, if the account it names still maps
    to [t], that mapping. *)
Definition drop_token (t : string) (info : token_info) (s : token_store)
  : token_store :=
  TokenStore (delete t (active_tokens s))
             (if bool_decide (user_tokens s !! account info = Some t)
              then delete (account info) (user_tokens s)
              else user_tokens s).

(** Calls on the token store, with what the environment supplies. *)
Inductive call : Type :=
| CreateToken (acct token : string) (now_e now_c : Z)
| VerifyToken (token : option string) (now : Z)
| RevokeToken (token : string).

Definition exec (s : token_store) (c : call) : token_store :=
  match c with
  | CreateToken a t ne nc => (create_token a t ne nc s).2
  | VerifyToken t now => (verify_token t now s).2
  | RevokeToken t => (revoke_token t s).2
  end.

(** A generated token is fresh: no record of the store carries it. *)
Definition fresh_tokens (s : token_store) (c : call) : Prop :=
  match c with
  | CreateToken _ t _ _ => active_tokens s !! t = None
  | _ => True
  end.

(** Runs in which every generated token is fresh at the time of its call. *)
Fixpoint fresh_run (s : token_store) (cs : list call) : Prop :=
  match cs with
  | [] => True
  | c :: r => fresh_tokens s c ∧ fresh_run (exec s c) r
  end.

(** The token was handed out by some [create_token] call of the run. *)
Definition created_in (cs : list call) (t : string) : Prop :=
  ∃ a ne nc, CreateToken a t ne nc ∈ cs.

(** *** The user functions over [users.json]

    The file is missing, holds text that [json.load] rejects with
    [JSONDecodeError], cannot be read at all (bytes that are not UTF-8
    raise [UnicodeDecodeError], which [load_users] does not catch), or
    holds an object of user records.  What a function is given as account,
    password or display id is whatever the request carried: any value. *)

Inductive user_file : Type :=
| NoFile
| BadJson
| Unreadable (e : pyexn)
| Stored (users : gmap string (gmap string pyval)).

(** [load_users]: a missing file and a [JSONDecodeError] both give [{}];
    another exception of the read escapes. *)
Definition load_users (f : user_file)
  : outcome (gmap string (gmap string pyval)) :=
  match f with
  | Stored users => Return users
  | NoFile | BadJson => Return ∅
  | Unreadable e => Raise e
  end.

(** How the write of the file goes, as the environment decides: it goes
    through, or it fails (the file cannot be opened, the disk is full)
    and leaves the file in some state: untouched, truncated, unreadable. *)
Inductive write_result : Type :=
| WriteOk
| WriteFails (remains : user_file).

(** [save_users].  [text] is what [json.dump] writes for the dict, as
    [json.load] reads it back; [None] when [json.dump] raises [TypeError]
    partway, which leaves a truncated file.  Every exception is caught
    and only printed, so the caller learns nothing of a failure. *)
Definition save_users (text : option (gmap string (gmap string pyval)))
    (w : write_result) (f : user_file) : user_file :=
  match w with
  | WriteFails remains => remains
  | WriteOk =>
      match text with
      | Some users => Stored users
      | None => BadJson
      end
  end.

(** The answer of a refused registration or login. *)
Definition refusal (msg : string) : gmap string pyval :=
  <["ok" := PBool false]> (<["msg" := PStr msg]> ∅).

(** The record [register_user] stores for a new account. *)
Definition new_user (account game_id : pyval) (pwhash : string)
  : gmap string pyval :=
  <["account" := account]>
  (<["ID" := game_id]>
  (<["password" := PStr pwhash]>
  (<["room" := PNone]> ∅))).

(** [account in users] for a dict read from JSON, whose keys are strings:
    a list or dict is unhashable, a number, [True] or a class equals no
    string key. *)
Definition in_users (account : pyval)
    (users : gmap string (gmap string pyval)) : outcome bool :=
  match account with
  | PStr s => Return (bool_decide (is_Some (users !! s)))
  | PList _ | PDict _ => Raise (TypeError "unhashable type")
  | PNone | PBool _ | PInt _ | PFloat _ | PClass _ => Return false
  end.

Section register.
(** Python's [repr] of the float with the given bits, which [json.dump]
    writes for a float used as a key. *)
Variable float_repr : Z → string.

(** The key [json.dump] writes for a dict key: a string as it is, a
    number by its decimal form, [True], [False] and [None] by their JSON
    names; any other key makes it raise [TypeError]. *)
Definition json_key (key : pyval) : option string :=
  match key with
  | PStr s => Some s
  | PInt z => Some (pretty z)
  | PFloat bits => Some (float_repr bits)
  | PBool true => Some "true"
  | PBool false => Some "false"
  | PNone => Some "null"
  | PList _ | PDict _ | PClass _ => None
  end.

(** What [json.dump] writes for the loaded dict with the new record
    under [account].  If the written key was there already, the text
    holds it twice and [json.load] keeps the later entry, the new one. *)
Definition dump_with_new_user (account game_id : pyval) (pwhash : string)
    (users : gmap string (gmap string pyval))
  : option (gmap string (gmap string pyval)) :=
  match json_key account with
  | Some k =>
      if serialisable account && serialisable game_id
      then Some (<[k := new_user account game_id pwhash]> users)
      else None
  | None => None
  end.

(** [register_user].  [hashed] is what [generate_password_hash] did for
    the password: it returned a hash (with a random salt) or raised. *)
Definition register_user (hashed : outcome string) (w : write_result)
    (account password game_id : pyval) (f : user_file)
  : outcome (gmap string pyval) * user_file :=
  if negb (py_truthy account) || negb (py_truthy password)
     || negb (py_truthy game_id)
  then (Return (refusal "账号、密码和ID不能为空"), f)
  else
    match load_users f with
    | Raise e => (Raise e, f)
    | Return users =>
        match in_users account users with
        | Raise e => (Raise e, f)
        | Return true => (Return (refusal "账号已存在"), f)
        | Return false =>
            match hashed with
            | Raise e => (Raise e, f)
            | Return pwhash =>
                (Return (<["ok" := PBool true]>
                         (<["msg" := PStr "注册成功"]> ∅)),
                 save_users
                   (dump_with_new_user account game_id pwhash users) w f)
            end
        end
    end.
End register.


(** [update_user_room]; [room] is a room id or [None]. *)
Definition update_user_room (w : write_result) (acct : string)
    (room : option string) (f : user_file) : outcome bool * user_file :=
  match load_users f with
  | Raise e => (Raise e, f)
  | Return users =>
      match users !! acct with
      | Some user =>
          let room_value :=
            match room with Some r => PStr r | None => PNone end in
          (Return true,
           save_users (Some (<[acct := <["room" := room_value]> user]> users))
             w f)
      | None => (Return false, f)
      end
  end.

(** [get_user]: the record as stored, password hash included.  The log
    line it prints reads [user['ID']], which raises on a non-empty record
    without that key. *)
Definition get_user (acct : string) (f : user_file)
  : outcome (option (gmap string pyval)) :=
  let! users := load_users f in
  match users !! acct with
  | Some user =>
      if bool_decide (user = ∅) then Return (Some user)
      else let! _ := getitem user "ID" in Return (Some user)
  | None => Return None
  end.

(** The public part of a user record, as a successful login returns it. *)
Definition user_info (acct : string) (id room : pyval) : gmap string pyval :=
  <["account" := PStr acct]> (<["ID" := id]> (<["room" := room]> ∅)).

(** The answer of a successful login. *)
Definition login_ok (info : gmap string pyval) (tok : string)
  : gmap string pyval :=
  <["ok" := PBool true]>
  (<["msg" := PStr "登录成功"]>
  (<["user" := PDict info]>
  (<["token" := PStr tok]> ∅))).

Section login.
(** [werkzeug.security.check_password_hash], applied to the stored
    ['password'] value and the password typed in. *)
Variable check_password_hash : pyval → string → outcome bool.

(** [login_user].  The token store travels with the result: it has
    changed once [create_token] ran, also if a later line raises. *)
Definition login_user (acct password : string)
    (token : string) (now_e now_c : Z) (f : user_file) (s : token_store)
  : outcome (gmap string pyval) * token_store :=
  match load_users f with
  | Raise e => (Raise e, s)
  | Return users =>
      let no_user :=
        <["ok" := PBool false]> (<["msg" := PStr "用户不存在"]> ∅) in
      match users !! acct with
      | None => (Return no_user, s)
      | Some user =>
          if bool_decide (user = ∅) then (Return no_user, s)
          else
            match getitem user "password" with
            | Raise e => (Raise e, s)
            | Return pwhash =>
                match check_password_hash pwhash password with
                | Raise e => (Raise e, s)
                | Return false =>
                    (Return (<["ok" := PBool false]>
                             (<["msg" := PStr "密码错误"]> ∅)), s)
                | Return true =>
                    let '(tok, s1) := create_token acct token now_e now_c s in
                    match getitem user "ID" with
                    | Raise e => (Raise e, s1)
                    | Return id =>
                        let user_info :=
                          <["account" := PStr acct]>
                          (<["ID" := id]>
                          (<["room" := default PNone (user !! "room")]> ∅)) in
                        (Return (<["ok" := PBool true]>
                                 (<["msg" := PStr "登录成功"]>
                                 (<["user" := PDict user_info]>
                                 (<["token" := PStr tok]> ∅)))), s1)
                    end
                end
            end
      end
  end.
End login.

End Auth.

(** ** app.py: the discovery route *)

Module App.

(** The loop of [available_games]: one dict of five items per game,
    appended to [game_list]; a missing key raises [KeyError]. *)
Fixpoint collect (games : list (gmap string pyval)) (game_list : list pyval)
  : outcome (list pyval) :=
  match games with
  | [] => Return game_list
  | game :: rest =>
      let! id := getitem game "id" in
      let! name := getitem game "name" in
      let! description := getitem game "description" in
      let! min_players := getitem game "min_players" in
      let! max_players := getitem game "max_players" in
      collect rest
        (game_list ++
           [PDict (<["id" := id]>
                   (<["name" := name]>
                   (<["description" := description]>
                   (<["min_players" := min_players]>
                   (<["max_players" := max_players]> ∅)))))])
  end.

(** [available_games], given what [game_registry.get_available_games()]
    returned; the result is the JSON body [jsonify] makes of the dict. *)
Definition available_games (games : list (gmap string pyval)) : outcome pyval :=
  let! game_list := collect games [] in
  jsonify (PDict (<["games" := PList game_list]> ∅)).

Definition public_fields : list string :=
  ["id"; "name"; "description"; "min_players"; "max_players"].

(** A registry entry that carries the public metadata. *)
Definition has_metadata (game : gmap string pyval) : Prop :=
  Forall (λ k, is_Some (game !! k)) public_fields.

(** A registry entry whose public metadata [jsonify] can write (strings
    and numbers, as a catalogue entry has them). *)
Definition json_metadata (game : gmap string pyval) : Prop :=
  Forall (λ k, ∀ v, game !! k = Some v → serialisable v = true) public_fields.

(** What the response shows of one registry entry: a dict with exactly the
    public fields, each with the entry's value. *)
Definition shows (game : gmap string pyval) (v : pyval) : Prop :=
  ∃ r : gmap string pyval,
    v = PDict r ∧
    dom r = list_to_set public_fields ∧
    (∀ k, k ∈ public_fields → r !! k = game !! k) ∧
    r !! "class" = None.

End App.

(** * Properties *)

(** ** Python values *)

Module PyFacts.

Lemma serialisable_dict (d : gmap string pyval) :
  serialisable (PDict d) = true ↔
  map_Forall (λ _ v, serialisable v = true) d.
Proof.
  cbn [serialisable].
  apply (map_fold_weak_ind
           (λ r (m : gmap string pyval),
              r = true ↔ map_Forall (λ _ v, serialisable v = true) m)).
  - split; [intros _; apply map_Forall_empty|done].
  - intros k v m r Hk IH. rewrite map_Forall_insert by done.
    rewrite andb_true_iff, IH. done.
Qed.

Lemma serialisable_list (l : list pyval) :
  serialisable (PList l) = true ↔ Forall (λ v, serialisable v = true) l.
Proof. cbn [serialisable]. rewrite forallb_forall, Forall_forall.
  split; intros H x Hx; apply H; by apply list_elem_of_In. Qed.

Lemma jsonify_returns v : serialisable v = true → jsonify v = Return v.
Proof. intros H. unfold jsonify. by rewrite H. Qed.

Lemma jsonify_raises v :
  serialisable v = false → jsonify v = Raise (TypeError "not JSON serializable").
Proof. intros H. unfold jsonify. by rewrite H. Qed.

End PyFacts.

(** ** The ordered dict *)

Module OrderedDictFacts.
Import OrderedDict.
Section facts.
Context {V : Type}.
Implicit Types (d : list (string * V)) (k : string).

Lemma contains_true k d : contains k d = true ↔ k ∈ keys d.
Proof. unfold contains. apply bool_decide_eq_true. Qed.

Lemma contains_false k d : contains k d = false ↔ k ∉ keys d.
Proof. unfold contains. apply bool_decide_eq_false. Qed.

Lemma setitem_new k (v : V) d : k ∉ keys d → setitem k v d = d ++ [(k, v)].
Proof. intros Hk. unfold setitem. by rewrite (proj2 (contains_false k d)). Qed.

Lemma keys_delitem k d : keys (delitem k d) = filter (λ x, x ≠ k) (keys d).
Proof.
  unfold keys, delitem. induction d as [|[x v] d IH]; [done|].
  rewrite fmap_cons, !filter_cons. cbn [fst].
  destruct (decide (x ≠ k)); [rewrite fmap_cons; by f_equal | done].
Qed.

Lemma delitem_absent k d : k ∉ keys d → delitem k d = d.
Proof.
  unfold keys, delitem. induction d as [|[x v] d IH]; [done|].
  rewrite fmap_cons, not_elem_of_cons. cbn [fst]. intros [Hx Hd].
  rewrite filter_cons. cbn [fst]. rewrite decide_True by done. by rewrite IH.
Qed.

Lemma elem_of_keys_delitem k x d : x ∈ keys (delitem k d) ↔ x ∈ keys d ∧ x ≠ k.
Proof. rewrite keys_delitem, list_elem_of_filter. tauto. Qed.

Lemma truthy_true d : truthy d = true ↔ d ≠ [].
Proof. by destruct d. Qed.

Lemma first_key_cons x (v : V) d : first_key ((x, v) :: d) = Some x.
Proof. done. Qed.
End facts.
End OrderedDictFacts.

(** ** The roulette plugin *)

Module RouletteFacts.
Import OrderedDict OrderedDictFacts Roulette.

(** *** Single calls *)

Lemma join_present g a p :
  a ∈ keys (players g) → join g a p = (None, g).
Proof. intros Ha. unfold join. by rewrite (proj2 (contains_true a (players g))). Qed.

Lemma join_absent g a p :
  a ∉ keys (players g) →
  join g a p =
    (Some (length (players g) + 1),
     Game (room_id g)
          (players g ++ [(a, Player p (length (players g) + 1))])
          (started g)
          (Some (default a (host g)))
          (game_type g) (test_message g)).
Proof.
  intros Ha. unfold join. rewrite (proj2 (contains_false a (players g))) by done.
  destruct g as [rid ps st [h|] gt tm]; simpl in *;
    by rewrite setitem_new.
Qed.

Lemma leave_absent g a : a ∉ keys (players g) → leave g a = g.
Proof. intros Ha. unfold leave. by rewrite (proj2 (contains_false a (players g))). Qed.

Lemma players_leave g a : players (leave g a) = delitem a (players g).
Proof.
  unfold leave. destruct (contains a (players g)) eqn:Hc.
  - cbn [players set_players host].
    destruct (bool_decide _ && truthy _); [|done].
    by destruct (first_key _).
  - apply contains_false in Hc. by rewrite delitem_absent.
Qed.

Lemma leave_host_remaining g a x v rest :
  host g = Some a → a ∈ keys (players g) →
  delitem a (players g) = (x, v) :: rest →
  host (leave g a) = Some x.
Proof.
  intros Hh Ha Hd. unfold leave.
  rewrite (proj2 (contains_true a (players g))) by done.
  cbn [players set_players host]. rewrite Hd, Hh.
  rewrite bool_decide_eq_true_2 by done. done.
Qed.

Lemma leave_not_host g a :
  host g ≠ Some a → host (leave g a) = host g.
Proof.
  intros Hh. unfold leave. destruct (contains a (players g)); [|done].
  cbn [players set_players host].
  rewrite bool_decide_eq_false_2 by congruence. done.
Qed.

Lemma eq_str_false (d : gmap string pyval) (key s : string) :
  d !! key ≠ Some (PStr s) → eq_str (default PNone (d !! key)) s = false.
Proof.
  intros Hne. destruct (d !! key) as [[]|]; try done.
  simpl. apply bool_decide_eq_false. congruence.
Qed.

(** C6.  Joining with an account that is already a key of [players]
    returns [None] and leaves the instance as it was: same players with the
    same order numbers, same host, same flag. *)
Theorem join_again_is_noop (g : RouletteGame) (account display_id : string) :
  account ∈ keys (players g) →
  (join g account display_id).1 = None ∧
  (join g account display_id).2 = g.
Proof. intros Ha. by rewrite join_present. Qed.

Lemma join_again_is_noop_witness :
  let g := (join (init "r1") "alice" "Alice").2 in
  players g = [("alice", Player "Alice" 1)] ∧
  (join g "alice" "Al").1 = None ∧ (join g "alice" "Al").2 = g.
Proof.
  split; [reflexivity|].
  apply (join_again_is_noop (join (init "r1") "alice" "Alice").2 "alice" "Al").
  vm_compute. apply list_elem_of_here.
Defined.

(** C3.  [start()] returns true exactly when a player is present, which is
    the threshold [min_players = 1] of the catalogue entry; on success only
    the started flag changes, to true, and on failure nothing changes. *)
Theorem start_iff_player_present :
  register_game !! "min_players" = Some (PInt 1) ∧
  ∀ g : RouletteGame,
    ((start g).1 = true ↔ 1 ≤ length (players g)) ∧
    (start g).2 = (if (start g).1 then set_started true g else g) ∧
    started (set_started true g) = true.
Proof.
  split; [by vm_compute|].
  intros g. unfold start. case_bool_decide as Hlen; simpl.
  - split; [split; intros; [lia | done] | done].
  - split; [split; intros; [done | lia] | done].
Qed.

(** C4.  An event whose ['event_name'] is not the string ['test_input']
    (another value, or no such key) is answered with [ok = False], the
    fixed message and [broadcast = False]; the call returns (it raises
    nothing) and the instance is unchanged. *)
Theorem unknown_event_rejected (py_str : pyval → string)
    (g : RouletteGame) (account : string) (d : gmap string pyval) :
  d !! "event_name" ≠ Some (PStr "test_input") →
  ∃ r : gmap string pyval,
    handle_event py_str g account (PDict d) = (Return r, g) ∧
    r !! "ok" = Some (PBool false) ∧
    r !! "msg" = Some (PStr "未知事件类型") ∧
    r !! "broadcast" = Some (PBool false).
Proof.
  intros Hne. eexists. split.
  - unfold handle_event. cbn [py_get bind]. by rewrite eq_str_false.
  - by vm_compute.
Qed.

Lemma unknown_event_rejected_witness :
  ∃ r : gmap string pyval,
    handle_event (λ _, "") (init "r1") "bob"
      (PDict (<["event_name" := PStr "spin"]> ∅)) = (Return r, init "r1") ∧
    r !! "ok" = Some (PBool false) ∧
    r !! "msg" = Some (PStr "未知事件类型") ∧
    r !! "broadcast" = Some (PBool false).
Proof.
  apply (unknown_event_rejected (λ _, "") (init "r1") "bob"
           (<["event_name" := PStr "spin"]> ∅)).
  vm_compute. discriminate.
Defined.

(** C5.  A ['test_input'] event whose ['event_data'] carries the string [s]
    under ['input'] is answered with [ok = True], [broadcast = True] and
    [echo = s]; the instance is unchanged. *)
Theorem test_input_echoed (py_str : pyval → string)
    (g : RouletteGame) (a s : string) (d e : gmap string pyval) :
  d !! "event_name" = Some (PStr "test_input") →
  d !! "event_data" = Some (PDict e) →
  e !! "input" = Some (PStr s) →
  ∃ r : gmap string pyval,
    handle_event py_str g a (PDict d) = (Return r, g) ∧
    r !! "ok" = Some (PBool true) ∧
    r !! "broadcast" = Some (PBool true) ∧
    r !! "echo" = Some (PStr s).
Proof.
  intros Hn Hd Hi. eexists. split.
  - unfold handle_event. cbn [py_get bind]. rewrite Hn, Hd.
    unfold default, from_option, id. cbn [eq_str py_get bind].
    rewrite bool_decide_eq_true_2 by done. rewrite Hi. reflexivity.
  - by vm_compute.
Qed.

Lemma test_input_echoed_witness :
  ∃ r : gmap string pyval,
    handle_event (λ _, "") (init "r1") "bob"
      (PDict (<["event_name" := PStr "test_input"]>
              (<["event_data" := PDict (<["input" := PStr "hi"]> ∅)]> ∅)))
      = (Return r, init "r1") ∧
    r !! "ok" = Some (PBool true) ∧
    r !! "broadcast" = Some (PBool true) ∧
    r !! "echo" = Some (PStr "hi").
Proof.
  apply (test_input_echoed (λ _, "") (init "r1") "bob" "hi"
           (<["event_name" := PStr "test_input"]>
            (<["event_data" := PDict (<["input" := PStr "hi"]> ∅)]> ∅))
           (<["input" := PStr "hi"]> ∅)); by vm_compute.
Defined.

(** The two-player scenario of the specification: [A] and [B] join and get
    1 and 2, the game starts, [B]'s test input is echoed to the room, and
    when [A] leaves [B] becomes host. *)
Example scenario_two_players :
  let g0 := init "r1" in
  let '(o1, g1) := join g0 "A" "a" in
  let '(o2, g2) := join g1 "B" "b" in
  let '(ok, g3) := start g2 in
  let '(res, g4) :=
    handle_event (λ _, "") g3 "B"
      (PDict (<["event_name" := PStr "test_input"]>
              (<["event_data" := PDict (<["input" := PStr "hi"]> ∅)]> ∅))) in
  let g5 := leave g4 "A" in
  o1 = Some 1 ∧ o2 = Some 2 ∧ ok = true ∧ started g3 = true ∧
  host g3 = Some "A" ∧
  (∃ r, res = Return r ∧ r !! "echo" = Some (PStr "hi") ∧
        r !! "ok" = Some (PBool true) ∧ r !! "broadcast" = Some (PBool true)) ∧
  keys (players g5) = ["B"] ∧ host g5 = Some "B" ∧ started g5 = true.
Proof.
  vm_compute. repeat (split; [reflexivity|]).
  split; [|by repeat split]. eexists. split; [reflexivity|]. by vm_compute.
Qed.

(** *** Runs *)

Lemma run_cons g o ops : run g (o :: ops) = run (step g o) ops.
Proof. done. Qed.

Lemma orders_join_absent g a p :
  a ∉ keys (players g) →
  orders (join g a p).2 = orders g ++ [length (players g) + 1].
Proof.
  intros Ha. rewrite join_absent by done. unfold orders. cbn [players snd].
  by rewrite !fmap_app.
Qed.

Lemma host_join g a p h : host g = Some h → host (join g a p).2 = Some h.
Proof.
  intros Hh. unfold join. destruct (contains a (players g)); [done|].
  by rewrite Hh.
Qed.

Lemma host_join_only g ops h :
  Forall is_join ops → host g = Some h → host (run g ops) = Some h.
Proof.
  intros Hops. revert g. induction Hops as [|[a p|a] ops Ho _ IH]; intros g Hh;
    [done| |done].
  rewrite run_cons. apply IH. by apply host_join.
Qed.

Lemma successful_orders_join g a p ops :
  successful_orders g (Join a p :: ops) =
    match (join g a p).1 with
    | Some n => n :: successful_orders (join g a p).2 ops
    | None => successful_orders (join g a p).2 ops
    end.
Proof. unfold successful_orders. simpl. by destruct (join g a p).1. Qed.

Lemma successful_orders_leave g a ops :
  successful_orders g (Leave a :: ops) = successful_orders (leave g a) ops.
Proof. done. Qed.

(** In a run of joins only, starting where the stored order numbers are
    [1..n] in insertion order, the joins that succeed return [n+1, n+2, ...]
    and the stored numbers stay [1..n']. *)
Lemma orders_join_only g ops :
  Forall is_join ops →
  orders g = seq 1 (length (players g)) →
  ∃ k, length (players (run g ops)) = length (players g) + k ∧
       successful_orders g ops = seq (length (players g) + 1) k ∧
       orders (run g ops) = seq 1 (length (players (run g ops))).
Proof.
  intros Hops. revert g.
  induction Hops as [|[a p|a] ops Ho _ IH]; intros g Hg; [| |done].
  - exists 0. by rewrite Nat.add_0_r.
  - rewrite run_cons, successful_orders_join. cbn [step].
    destruct (decide (a ∈ keys (players g))) as [Hin|Hout].
    + rewrite join_present by done. cbn [fst snd]. by apply IH.
    + assert (Hlen : length (players (join g a p).2) = S (length (players g))).
      { rewrite join_absent by done. cbn [players snd].
        rewrite length_app. simpl. lia. }
      destruct (IH (join g a p).2) as (k & Hk & Hs & Ho').
      { rewrite orders_join_absent, Hlen, Hg by done.
        by rewrite seq_S, Nat.add_comm. }
      exists (S k). split; [lia|]. split; [|exact Ho'].
      rewrite Hs, Hlen. rewrite join_absent by done. cbn [fst seq].
      do 2 f_equal; lia.
Qed.

(** C2, as the code has it.  A join of an account that is not present
    returns the number of players present plus one, appends the account
    with that number, and makes it host when the instance has none.  In a
    run of joins on a new instance the k-th join that succeeds returns k,
    the stored order numbers are [1..n] (so pairwise distinct), and the
    first joiner is the host. *)
Theorem join_numbers_by_player_count :
  (∀ (g : RouletteGame) (a p : string),
     a ∉ keys (players g) →
     (join g a p).1 = Some (length (players g) + 1) ∧
     players (join g a p).2 =
       players g ++ [(a, Player p (length (players g) + 1))] ∧
     host (join g a p).2 = Some (default a (host g))) ∧
  (∀ (rid : string) (ops : list op),
     Forall is_join ops →
     successful_orders (init rid) ops =
       seq 1 (length (players (run (init rid) ops))) ∧
     orders (run (init rid) ops) =
       seq 1 (length (players (run (init rid) ops))) ∧
     NoDup (orders (run (init rid) ops))) ∧
  (∀ (rid a p : string) (ops : list op),
     Forall is_join ops →
     host (run (init rid) (Join a p :: ops)) = Some a).
Proof.
  split; [|split].
  - intros g a p Ha. by rewrite join_absent.
  - intros rid ops Hops.
    destruct (orders_join_only (init rid) ops Hops) as (k & Hk & Hs & Ho); [done|].
    simpl in Hk, Hs. rewrite Hs, Ho, Hk. split; [done|]. split; [done|].
    apply NoDup_seq.
  - intros rid a p ops Hops. rewrite run_cons. by apply host_join_only.
Qed.

Lemma join_numbers_by_player_count_witness :
  let ops := [Join "A" "a"; Join "B" "b"; Join "A" "again"] in
  successful_orders (init "r1") ops =
    seq 1 (length (players (run (init "r1") ops))) ∧
  orders (run (init "r1") ops) =
    seq 1 (length (players (run (init "r1") ops))) ∧
  NoDup (orders (run (init "r1") ops)).
Proof.
  apply (proj1 (proj2 join_numbers_by_player_count) "r1"
           [Join "A" "a"; Join "B" "b"; Join "A" "again"]).
  repeat constructor.
Defined.

(** C2 fails once a player has left: after [A] and [B] joined and [A]
    left, the third successful join (of [C]) returns 2, not 3, and [B] and
    [C] both hold order number 2. *)
Lemma join_reuses_order_after_leave :
  let ops := [Join "A" "a"; Join "B" "b"; Leave "A"; Join "C" "c"] in
  successful_orders (init "r1") ops = [1; 2; 2] ∧
  players (run (init "r1") ops) =
    [("B", Player "b" 2); ("C", Player "c" 2)] ∧
  ¬ NoDup (orders (run (init "r1") ops)).
Proof.
  split; [reflexivity|]. split; [reflexivity|].
  intros Hnd. apply NoDup_cons in Hnd as [Hnot _].
  apply Hnot. apply list_elem_of_here.
Qed.

(** *** Join times: insertion order is chronological order *)

Lemma StronglySorted_filter {A} (R : relation A) (P : A → Prop)
    `{∀ x, Decision (P x)} (l : list A) :
  StronglySorted R l → StronglySorted R (filter P l).
Proof.
  induction 1 as [|x l Hl IH Hx]; [constructor|].
  rewrite filter_cons. destruct (decide (P x)); [|done].
  constructor; [done|].
  apply Forall_forall. intros y [_ Hy]%list_elem_of_filter.
  by eapply Forall_forall in Hx.
Qed.

Lemma StronglySorted_change {A} (R R' : relation A) (l : list A) :
  (∀ x y, x ∈ l → y ∈ l → R x y → R' x y) →
  StronglySorted R l → StronglySorted R' l.
Proof.
  intros HR Hs. induction Hs as [|x l Hl IH Hx]; constructor.
  - apply IH. intros y z Hy Hz. apply HR; by apply list_elem_of_further.
  - apply Forall_forall. intros y Hy. apply HR.
    + apply list_elem_of_here.
    + by apply list_elem_of_further.
    + by eapply Forall_forall in Hx.
Qed.

Lemma chronological_init rid : chronological (init rid) 0 ∅.
Proof. repeat split; constructor. Qed.

Lemma chronological_join g t tm a p :
  chronological g t tm →
  chronological (join g a p).2 (S t)
    (match (join g a p).1 with Some _ => <[a := t]> tm | None => tm end).
Proof.
  intros (Hnd & Hpast & Hsorted).
  destruct (decide (a ∈ keys (players g))) as [Hin|Hout].
  - rewrite join_present by done. cbn [fst snd]. split; [done|]. split; [|done].
    eapply Forall_impl; [exact Hpast|]. intros k (s & Hs & Hlt). exists s. split; [done|lia].
  - rewrite join_absent by done. cbn [fst snd]. unfold chronological, keys in *.
    cbn [players]. rewrite fmap_app. cbn [fmap list_fmap fst].
    assert (Hold : ∀ k, k ∈ (players g).*1 → <[a:=t]> tm !! k = tm !! k).
    { intros k Hk. apply lookup_insert_ne. by intros ->. }
    split; [|split].
    + apply NoDup_app. split; [done|]. split; [|apply NoDup_singleton].
      intros k Hk ->%list_elem_of_singleton. done.
    + apply Forall_app. split.
      * apply Forall_forall. intros k Hk.
        destruct (proj1 (Forall_forall _ _) Hpast k Hk) as (s & Hs & Hlt).
        exists s. rewrite Hold by done. split; [done|lia].
      * apply Forall_singleton. exists t. rewrite lookup_insert_eq. split; [done|lia].
    + apply StronglySorted_app. split; [|split].
      * intros k q Hk ->%list_elem_of_singleton.
        destruct (proj1 (Forall_forall _ _) Hpast k Hk) as (s & Hs & Hlt).
        exists s, t. by rewrite Hold, lookup_insert_eq.
      * eapply StronglySorted_change; [|exact Hsorted].
        intros k q Hk Hq (s & sq & Hs & Hq' & Hlt). exists s, sq.
        by rewrite !Hold.
      * repeat constructor.
Qed.

Lemma chronological_leave g t tm a :
  chronological g t tm → chronological (leave g a) (S t) (delete a tm).
Proof.
  intros (Hnd & Hpast & Hsorted). unfold chronological.
  rewrite players_leave, keys_delitem.
  assert (Hold : ∀ k, k ∈ filter (λ x, x ≠ a) (keys (players g)) →
                      delete a tm !! k = tm !! k).
  { intros k [Hk _]%list_elem_of_filter. by apply lookup_delete_ne. }
  split; [|split].
  - by apply NoDup_filter.
  - apply Forall_forall. intros k Hk. rewrite Hold by done.
    apply list_elem_of_filter in Hk as [_ Hk].
    destruct (proj1 (Forall_forall _ _) Hpast k Hk) as (s & Hs & Hlt).
    exists s. split; [done|lia].
  - eapply StronglySorted_change; [|by apply StronglySorted_filter].
    intros k q Hk Hq (s & sq & Hs & Hq' & Hlt). exists s, sq.
    by rewrite !Hold.
Qed.

Lemma chronological_run g t tm ops :
  chronological g t tm →
  chronological (run g ops) (t + length ops) (join_times g t tm ops).
Proof.
  revert g t tm. induction ops as [|[a p|a] ops IH]; intros g t tm Hc.
  - by rewrite Nat.add_0_r.
  - rewrite run_cons. cbn [join_times length].
    replace (t + S (length ops)) with (S t + length ops) by lia.
    apply IH. by apply chronological_join.
  - rewrite run_cons. cbn [join_times length].
    replace (t + S (length ops)) with (S t + length ops) by lia.
    apply IH. by apply chronological_leave.
Qed.

(** A join time is the position of a [Join] of that account in the run. *)
Lemma join_times_origin g t tm ops a s :
  join_times g t tm ops !! a = Some s →
  tm !! a = Some s ∨ (t ≤ s ∧ ∃ p, ops !! (s - t) = Some (Join a p)).
Proof.
  revert g t tm. induction ops as [|[b p|b] ops IH]; intros g t tm H;
    cbn [join_times] in H; [by left| |].
  - apply IH in H as [H|(Hle & p' & Hp)].
    + destruct (join g b p).1; [|by left].
      destruct (decide (b = a)) as [->|Hne].
      * rewrite lookup_insert_eq in H. injection H as <-.
        right. split; [lia|]. exists p. by rewrite Nat.sub_diag.
      * rewrite lookup_insert_ne in H by done. by left.
    + right. split; [lia|]. exists p'.
      by replace (s - t) with (S (s - S t)) by lia.
  - apply IH in H as [H|(Hle & p' & Hp)].
    + left. by apply lookup_delete_Some in H as [_ ?].
    + right. split; [lia|]. exists p'.
      by replace (s - t) with (S (s - S t)) by lia.
Qed.

Lemma joined_at_is_join rid ops a s :
  joined_at rid ops a = Some s → ∃ p, ops !! s = Some (Join a p).
Proof.
  intros [H|(_ & p & Hp)]%join_times_origin.
  - by rewrite lookup_empty in H.
  - exists p. by rewrite Nat.sub_0_r in Hp.
Qed.

(** *** When the stored order numbers do follow the insertion order *)

Lemma StronglySorted_lt_seq a n : StronglySorted lt (seq a n).
Proof.
  revert a. induction n as [|n IH]; intros a; [constructor|].
  cbn [seq]. constructor; [apply IH|].
  apply Forall_forall. intros k Hk%elem_of_seq. lia.
Qed.

Lemma StronglySorted_of_fmap {A B} (f : A → B) (R : relation B) (l : list A) :
  StronglySorted R (f <$> l) → StronglySorted (λ x y, R (f x) (f y)) l.
Proof.
  induction l as [|x l IH]; [constructor|].
  rewrite fmap_cons. intros [Hl Hx]%StronglySorted_inv.
  constructor; [by apply IH|].
  apply Forall_forall. intros y Hy.
  eapply Forall_forall in Hx; [exact Hx|]. by apply list_elem_of_fmap_2.
Qed.

Lemma increasing_orders_join_only rid ops :
  Forall is_join ops → increasing_orders (run (init rid) ops).
Proof.
  intros Hops.
  destruct (orders_join_only (init rid) ops Hops) as (k & _ & _ & Ho); [done|].
  unfold increasing_orders, orders in *.
  apply (StronglySorted_of_fmap (order ∘ snd) lt).
  rewrite list_fmap_compose, Ho. apply StronglySorted_lt_seq.
Qed.

Lemma increasing_orders_leave g a :
  increasing_orders g → increasing_orders (leave g a).
Proof.
  unfold increasing_orders. rewrite players_leave. apply StronglySorted_filter.
Qed.

(** If the stored numbers grow along the insertion order (joins only, then
    any leaves), the player promoted when the host leaves does hold the
    smallest stored number. *)
Lemma leave_promotes_smallest_order g h x v rest :
  increasing_orders g → host g = Some h → h ∈ keys (players g) →
  players (leave g h) = (x, v) :: rest →
  host (leave g h) = Some x ∧ Forall (λ y, order v < order y.2) rest.
Proof.
  intros Hinc Hh Hin Hp. split.
  - rewrite players_leave in Hp. by eapply leave_host_remaining.
  - apply (increasing_orders_leave g h) in Hinc. unfold increasing_orders in Hinc.
    rewrite Hp in Hinc. by apply StronglySorted_inv in Hinc as [_ ?].
Qed.

(** C1.  When the host of an instance reached by joins
    and leaves from a new one leaves and players remain, the new host is
    the first remaining key of [players], and that is the earliest-joined
    remaining player: every other remaining player joined later. *)
Theorem host_leave_promotes_earliest_joined
    (rid : string) (ops : list op) (h : string) :
  host (run (init rid) ops) = Some h →
  h ∈ keys (players (run (init rid) ops)) →
  players (leave (run (init rid) ops) h) ≠ [] →
  ∃ h' : string,
    host (leave (run (init rid) ops) h) = Some h' ∧
    first_key (players (leave (run (init rid) ops) h)) = Some h' ∧
    ∀ q : string,
      q ∈ keys (players (leave (run (init rid) ops) h)) → q ≠ h' →
      ∃ th tq : nat,
        joined_at rid ops h' = Some th ∧ joined_at rid ops q = Some tq ∧
        th < tq.
Proof.
  intros Hh Hin Hne.
  pose proof (chronological_run (init rid) 0 ∅ ops (chronological_init rid))
    as (Hnd & Hpast & Hsorted).
  set (g := run (init rid) ops) in *.
  rewrite players_leave in Hne |- *.
  destruct (delitem h (players g)) as [|[x v] rest] eqn:Hd; [done|].
  exists x. split; [by eapply leave_host_remaining|]. split; [done|].
  intros q Hq Hqx.
  assert (Hs : StronglySorted (before (join_times (init rid) 0 ∅ ops))
                 (keys ((x, v) :: rest))).
  { rewrite <- Hd, keys_delitem. by apply StronglySorted_filter. }
  unfold keys in Hs, Hq. rewrite fmap_cons in Hs, Hq. cbn [fst] in Hs, Hq.
  apply StronglySorted_inv in Hs as [_ Hx].
  apply elem_of_cons in Hq as [->|Hq]; [done|].
  by eapply Forall_forall in Hx.
Qed.

Lemma host_leave_promotes_earliest_joined_witness :
  let ops := [Join "H" "h"; Join "X" "x"; Join "Y" "y"] in
  ∃ h' : string,
    host (leave (run (init "r1") ops) "H") = Some h' ∧
    first_key (players (leave (run (init "r1") ops) "H")) = Some h' ∧
    ∀ q : string,
      q ∈ keys (players (leave (run (init "r1") ops) "H")) → q ≠ h' →
      ∃ th tq : nat,
        joined_at "r1" ops h' = Some th ∧ joined_at "r1" ops q = Some tq ∧
        th < tq.
Proof.
  apply (host_leave_promotes_earliest_joined "r1"
           [Join "H" "h"; Join "X" "x"; Join "Y" "y"] "H").
  - reflexivity.
  - vm_compute. apply list_elem_of_here.
  - vm_compute. discriminate.
Defined.

(** Join order is the order of joining, not the stored order number:
    [H], [P], [Q], [X] join, [P] and [Q] leave, [Y] joins and gets number
    3; when the host [H] leaves, the new host is [X], who joined before
    [Y] and holds number 4, while [Y] holds the smaller number 3. *)
Lemma new_host_without_smallest_order :
  let ops := [Join "H" "h"; Join "P" "p"; Join "Q" "q"; Join "X" "x";
              Leave "P"; Leave "Q"; Join "Y" "y"] in
  let g := run (init "r1") ops in
  host g = Some "H" ∧
  players g = [("H", Player "h" 1); ("X", Player "x" 4); ("Y", Player "y" 3)] ∧
  host (leave g "H") = Some "X" ∧
  players (leave g "H") = [("X", Player "x" 4); ("Y", Player "y" 3)] ∧
  ¬ (∀ q v, get q (players (leave g "H")) = Some v → 4 ≤ order v).
Proof.
  repeat (split; [reflexivity|]).
  intros Hmin. specialize (Hmin "Y" (Player "y" 3) eq_refl). simpl in Hmin. lia.
Qed.

End RouletteFacts.

(** ** The session oracle's token store *)

Module AuthFacts.
Import Auth.

Lemma verify_token_present t now s info :
  t ≠ "" → active_tokens s !! t = Some info →
  verify_token (Some t) now s =
    if bool_decide (expires_at info < now)%Z
    then (None, drop_token t info s)
    else (Some (account info), s).
Proof.
  intros Ht Hl. unfold verify_token.
  rewrite bool_decide_eq_false_2 by done. by rewrite Hl.
Qed.

Lemma revoke_token_present t s info :
  active_tokens s !! t = Some info →
  revoke_token t s = (true, drop_token t info s).
Proof. intros Hl. unfold revoke_token. by rewrite Hl. Qed.

Lemma verify_token_state token now s :
  (verify_token token now s).2 = s ∨
  ∃ t info, token = Some t ∧ active_tokens s !! t = Some info ∧
            (verify_token token now s).2 = drop_token t info s.
Proof.
  destruct token as [t|]; [|by left]. unfold verify_token.
  case_bool_decide; [by left|].
  destruct (active_tokens s !! t) as [info|] eqn:Hl; [|by left].
  case_bool_decide; [|by left]. right. by exists t, info.
Qed.

Lemma revoke_token_state t s :
  (revoke_token t s).2 = s ∨
  ∃ info, active_tokens s !! t = Some info ∧
          (revoke_token t s).2 = drop_token t info s.
Proof.
  unfold revoke_token. destruct (active_tokens s !! t) as [info|] eqn:Hl.
  - right. by exists info.
  - by left.
Qed.

Lemma consistent_drop s t info :
  consistent s → active_tokens s !! t = Some info →
  consistent (drop_token t info s).
Proof.
  intros Hc Hl a' t' Hu. unfold drop_token in *. cbn [user_tokens active_tokens] in *.
  assert (Hold : user_tokens s !! a' = Some t' ∧
                 (a' = account info → user_tokens s !! a' ≠ Some t)).
  { case_bool_decide as Hcur.
    - apply lookup_delete_Some in Hu as [Hne Hu]. split; [done|]. by intros ->.
    - split; [done|]. by intros ->. }
  destruct Hold as [Hu' Hnot].
  destruct (Hc a' t' Hu') as (info' & Hl' & Ha').
  exists info'. split; [|done].
  rewrite lookup_delete_ne; [done|]. intros ->.
  rewrite Hl in Hl'. injection Hl' as <-. by apply Hnot.
Qed.

Lemma consistent_create s a t ne nc :
  consistent s → active_tokens s !! t = None →
  consistent (create_token a t ne nc s).2.
Proof.
  intros Hc Hfresh a' t' Hu. unfold create_token in *.
  cbn [snd user_tokens active_tokens] in *.
  destruct (decide (a' = a)) as [->|Hne].
  - rewrite lookup_insert_eq in Hu. injection Hu as <-.
    rewrite lookup_insert_eq. by eexists.
  - rewrite lookup_insert_ne in Hu by done.
    destruct (Hc a' t' Hu) as (info' & Hl' & Ha').
    exists info'. split; [|done].
    rewrite lookup_insert_ne by (intros ->; congruence).
    destruct (user_tokens s !! a) as [old|] eqn:Hold; [|done].
    destruct (active_tokens s !! old) as [oinfo|] eqn:Hol; [|done].
    rewrite lookup_delete_ne; [done|]. intros ->.
    destruct (Hc a t' Hold) as (i & Hi & Hai). congruence.
Qed.

Lemma consistent_exec s c :
  consistent s → fresh_tokens s c → consistent (exec s c).
Proof.
  intros Hc Hf. destruct c as [a t ne nc|token now|t]; cbn [exec].
  - by apply consistent_create.
  - destruct (verify_token_state token now s) as [->|(t & info & _ & Hl & ->)];
      [done|by apply consistent_drop].
  - destruct (revoke_token_state t s) as [->|(info & Hl & ->)];
      [done|by apply consistent_drop].
Qed.

Lemma consistent_run s cs :
  consistent s → fresh_run s cs → consistent (foldl exec s cs).
Proof.
  revert s. induction cs as [|c cs IH]; intros s Hc Hf; [done|].
  destruct Hf as [Hf Hr]. cbn [foldl]. apply IH; [|done].
  by apply consistent_exec.
Qed.

Lemma consistent_empty : consistent empty_store.
Proof. intros a t Hu. cbn [empty_store user_tokens] in Hu. by rewrite lookup_empty in Hu. Qed.

Lemma active_drop_token t0 info0 s t info :
  active_tokens (drop_token t0 info0 s) !! t = Some info →
  active_tokens s !! t = Some info.
Proof. cbn [drop_token active_tokens]. by intros [_ ?]%lookup_delete_Some. Qed.

(** A record present after a run was there before or was stored by a
    [create_token] call of the run, for the account it names. *)
Lemma records_created cs s t info :
  active_tokens (foldl exec s cs) !! t = Some info →
  active_tokens s !! t = Some info ∨
  ∃ ne nc, CreateToken (account info) t ne nc ∈ cs.
Proof.
  revert s. induction cs as [|c cs IH]; intros s Hl; [by left|].
  cbn [foldl] in Hl. destruct (IH _ Hl) as [Hc|(ne & nc & Hin)].
  - destruct c as [a t' ne nc|token now|t']; cbn [exec] in Hc.
    + unfold create_token in Hc. cbn [snd active_tokens] in Hc.
      destruct (decide (t' = t)) as [->|Hne].
      * rewrite lookup_insert_eq in Hc. injection Hc as <-.
        right. exists ne, nc. apply list_elem_of_here.
      * rewrite lookup_insert_ne in Hc by done. left.
        destruct (user_tokens s !! a) as [old|]; [|done].
        destruct (active_tokens s !! old); [|done].
        by apply lookup_delete_Some in Hc as [_ ?].
    + left. destruct (verify_token_state token now s)
        as [Hs|(t0 & info0 & _ & _ & Hs)]; rewrite Hs in Hc;
        [done|by eapply active_drop_token].
    + left. destruct (revoke_token_state t' s) as [Hs|(info0 & _ & Hs)];
        rewrite Hs in Hc; [done|by eapply active_drop_token].
  - right. exists ne, nc. by apply list_elem_of_further.
Qed.

Lemma verify_token_none token now s :
  (verify_token token now s).1 = None ↔ no_session token now s.
Proof.
  destruct token as [t|]; [|done]. unfold verify_token, no_session.
  case_bool_decide as Ht; [by split; [left|]|].
  destruct (active_tokens s !! t) as [info|] eqn:Hl.
  - case_bool_decide as He; cbn [fst].
    + split; [|done]. intros _. right. right. by exists info.
    + split; [done|]. intros [?|[?|(i & [= <-] & ?)]]; done.
  - split; [|done]. intros _. by right; left.
Qed.

Lemma verify_token_some t now s a :
  (verify_token (Some t) now s).1 = Some a →
  ∃ info, active_tokens s !! t = Some info ∧ account info = a.
Proof.
  unfold verify_token. case_bool_decide; [done|].
  destruct (active_tokens s !! t) as [info|]; [|done].
  case_bool_decide; [done|]. cbn [fst]. intros [= <-]. by exists info.
Qed.

(** C7, as the code has it.  [verify_token] returns [None] exactly when
    the token is missing or empty, has no record in [active_tokens], or its
    record is past its expiry; a record that is not expired yields its
    account and leaves the store alone; an expired one is dropped together
    with the account's mapping to it; and an account that is returned is
    one for which [create_token] handed out this token. *)
Theorem verify_token_resolves :
  (∀ token now s,
     (verify_token token now s).1 = None ↔ no_session token now s) ∧
  (∀ t now s info,
     t ≠ "" → active_tokens s !! t = Some info →
     ¬ (expires_at info < now)%Z →
     verify_token (Some t) now s = (Some (account info), s)) ∧
  (∀ t now s info,
     t ≠ "" → active_tokens s !! t = Some info →
     (expires_at info < now)%Z →
     verify_token (Some t) now s = (None, drop_token t info s)) ∧
  (∀ cs t now a,
     (verify_token (Some t) now (foldl exec empty_store cs)).1 = Some a →
     ∃ ne nc, CreateToken a t ne nc ∈ cs).
Proof.
  split; [exact verify_token_none|]. split; [|split].
  - intros t now s info Ht Hl He. rewrite (verify_token_present t now s info) by done.
    by rewrite bool_decide_eq_false_2.
  - intros t now s info Ht Hl He. rewrite (verify_token_present t now s info) by done.
    by rewrite bool_decide_eq_true_2.
  - intros cs t now a (info & Hl & <-)%verify_token_some.
    destruct (records_created cs empty_store t info Hl) as [He|?]; [|done].
    cbn [empty_store active_tokens] in He. by rewrite lookup_empty in He.
Qed.

Lemma verify_token_resolves_witness :
  let s := (create_token "alice" "tok" 0 0 empty_store).2 in
  verify_token (Some "tok") 1 s = (Some "alice", s).
Proof.
  apply (proj1 (proj2 verify_token_resolves) "tok" 1%Z
           (create_token "alice" "tok" 0 0 empty_store).2
           (TokenInfo "alice" 0 seven_days)).
  - discriminate.
  - by vm_compute.
  - by vm_compute.
Defined.

(** C7 fails for a token that was created and then revoked: it is not
    empty, [create_token] handed it out, its expiry (seven days after time
    0) is not reached at time 1, and [verify_token] returns [None]. *)
Lemma revoked_token_unauthorized :
  let cs := [CreateToken "alice" "tok" 0 0; RevokeToken "tok"] in
  (verify_token (Some "tok") 1 (foldl exec empty_store cs)).1 = None ∧
  "tok" ≠ "" ∧
  created_in cs "tok" ∧
  active_tokens (foldl exec empty_store [CreateToken "alice" "tok" 0 0])
    !! "tok" = Some (TokenInfo "alice" 0 seven_days) ∧
  ¬ (seven_days < 1)%Z.
Proof.
  split; [by vm_compute|]. split; [done|]. split; [|split].
  - exists "alice", 0%Z, 0%Z. apply list_elem_of_here.
  - by vm_compute.
  - by vm_compute.
Qed.

(** C9.  The three operations keep the two dicts consistent: the token an
    account maps to (a dict holds one per account) has a record and the
    record names that account.  [create_token] needs the generated token to
    be fresh.  After a new token is created for an account, the account's
    earlier token has no record any more and resolves to no account, as
    long as the generator does not hand it out again. *)
Theorem token_store_consistent :
  (∀ s a t ne nc,
     consistent s → active_tokens s !! t = None →
     consistent (create_token a t ne nc s).2) ∧
  (∀ s token now, consistent s → consistent (verify_token token now s).2) ∧
  (∀ s t, consistent s → consistent (revoke_token t s).2) ∧
  (∀ cs, fresh_run empty_store cs → consistent (foldl exec empty_store cs)) ∧
  (∀ s a t1 t2 ne nc cs now,
     consistent s → user_tokens s !! a = Some t1 →
     active_tokens s !! t2 = None → ¬ created_in cs t1 →
     (verify_token (Some t1) now
        (foldl exec (create_token a t2 ne nc s).2 cs)).1 = None).
Proof.
  split; [|split; [|split; [|split]]].
  - intros s a t ne nc. apply consistent_create.
  - intros s token now Hc. by apply (consistent_exec s (VerifyToken token now)).
  - intros s t Hc. by apply (consistent_exec s (RevokeToken t)).
  - intros cs. apply consistent_run, consistent_empty.
  - intros s a t1 t2 ne nc cs now Hc Hu Hfresh Hnot.
    apply verify_token_none. cbn [no_session]. right. left.
    destruct (active_tokens (foldl exec _ cs) !! t1) as [info|] eqn:Hl; [|done].
    exfalso. apply records_created in Hl as [Hl|(ne' & nc' & Hin)].
    + destruct (Hc a t1 Hu) as (i & Hi & _).
      unfold create_token in Hl. cbn [snd active_tokens] in Hl.
      rewrite Hu, Hi in Hl.
      rewrite lookup_insert_ne in Hl by congruence.
      by rewrite lookup_delete_eq in Hl.
    + apply Hnot. by exists (account info), ne', nc'.
Qed.

(** Why [create_token] needs a fresh token: if the generator repeated a
    token that is some other account's current one, that account would map
    to a record naming the new owner. *)
Example create_token_collision :
  let s := (create_token "alice" "tok" 0 0 empty_store).2 in
  consistent s ∧ ¬ consistent (create_token "bob" "tok" 5 5 s).2.
Proof.
  split.
  - apply consistent_create; [apply consistent_empty|done].
  - intros Hc. destruct (Hc "alice" "tok") as (info & Hl & Ha); [by vm_compute|].
    vm_compute in Hl. injection Hl as <-. discriminate Ha.
Qed.

Lemma token_store_consistent_witness :
  let s := foldl exec empty_store [CreateToken "alice" "tok1" 0 0] in
  (verify_token (Some "tok1") 1 (create_token "alice" "tok2" 5 5 s).2).1 = None.
Proof.
  apply (proj2 (proj2 (proj2 (proj2 token_store_consistent)))
           (foldl exec empty_store [CreateToken "alice" "tok1" 0 0])
           "alice" "tok1" "tok2" 5%Z 5%Z [] 1%Z).
  - apply (proj1 (proj2 (proj2 (proj2 token_store_consistent)))
             [CreateToken "alice" "tok1" 0 0]).
    split; [by vm_compute | exact I].
  - by vm_compute.
  - by vm_compute.
  - intros (a & ne & nc & Hin). by apply elem_of_nil in Hin.
Defined.

(** C10.  On an existing user store [init_users] writes back the same
    accounts with every user's ['room'] set to [None], whatever it was (or
    if it was missing), so no stored user points at a room; the other
    fields are kept.  Without a store it creates an empty one. *)
Theorem init_users_clears_rooms :
  init_users None = Some ∅ ∧
  ∀ data : gmap string (gmap string pyval),
    ∃ data' : gmap string (gmap string pyval),
      init_users (Some data) = Some data' ∧
      dom data' = dom data ∧
      (∀ acct user', data' !! acct = Some user' → user' !! "room" = Some PNone) ∧
      (∀ acct user, data !! acct = Some user →
         ∃ user', data' !! acct = Some user' ∧
                  ∀ k, k ≠ "room" → user' !! k = user !! k).
Proof.
  split; [reflexivity|]. intros data.
  eexists. split; [reflexivity|]. split; [apply dom_fmap_L|]. split.
  - intros acct user' Hu. rewrite lookup_fmap in Hu.
    destruct (data !! acct) as [user|]; [|done].
    injection Hu as <-. apply lookup_insert_eq.
  - intros acct user Hu. eexists. split.
    + rewrite lookup_fmap, Hu. reflexivity.
    + intros k Hk. by apply lookup_insert_ne.
Qed.

End AuthFacts.

(** ** The discovery route *)

Module AppFacts.
Import App.

Lemma has_metadata_lookups game :
  has_metadata game →
  ∃ v1 v2 v3 v4 v5,
    game !! "id" = Some v1 ∧ game !! "name" = Some v2 ∧
    game !! "description" = Some v3 ∧ game !! "min_players" = Some v4 ∧
    game !! "max_players" = Some v5.
Proof.
  unfold has_metadata, public_fields. intros H.
  apply Forall_cons in H as [[v1 H1] H]. apply Forall_cons in H as [[v2 H2] H].
  apply Forall_cons in H as [[v3 H3] H]. apply Forall_cons in H as [[v4 H4] H].
  apply Forall_cons in H as [[v5 H5] _]. by exists v1, v2, v3, v4, v5.
Qed.

Lemma collect_has_metadata games game_list :
  Forall has_metadata games →
  ∃ out, collect games game_list = Return (game_list ++ out) ∧
         Forall2 shows games out.
Proof.
  intros Hall. revert game_list.
  induction Hall as [|game games Hg _ IH]; intros game_list.
  - exists []. split; [by rewrite app_nil_r|constructor].
  - destruct (has_metadata_lookups game Hg)
      as (v1 & v2 & v3 & v4 & v5 & H1 & H2 & H3 & H4 & H5).
    cbn [collect]. unfold getitem. rewrite H1, H2, H3, H4, H5. cbn [bind].
    destruct (IH (game_list ++
      [PDict (<["id" := v1]> (<["name" := v2]> (<["description" := v3]>
             (<["min_players" := v4]> (<["max_players" := v5]> ∅)))))]))
      as (out & -> & Hout).
    eexists (_ :: out). split; [by rewrite <- app_assoc|].
    constructor; [|done]. eexists. split; [reflexivity|]. split; [|split].
    + rewrite !dom_insert_L, dom_empty_L. reflexivity.
    + intros k Hk. unfold public_fields in Hk.
      repeat (apply elem_of_cons in Hk as [->|Hk]);
        [..|by apply elem_of_nil in Hk]; by simplify_map_eq.
    + by simplify_map_eq.
Qed.

Local Ltac raises k :=
  exists k; split;
  [repeat first [apply list_elem_of_here | apply list_elem_of_further] | done].

(** An entry without one of the public fields makes the route raise. *)
Lemma collect_missing_metadata games game_list :
  ¬ Forall has_metadata games →
  ∃ k, k ∈ public_fields ∧ collect games game_list = Raise (KeyError k).
Proof.
  revert game_list. induction games as [|game games IH]; intros game_list Hnot.
  - destruct Hnot. constructor.
  - cbn [collect]. unfold getitem, public_fields.
    destruct (game !! "id") as [v1|] eqn:H1; [|raises "id"].
    destruct (game !! "name") as [v2|] eqn:H2; [|raises "name"].
    destruct (game !! "description") as [v3|] eqn:H3;
      [|raises "description"].
    destruct (game !! "min_players") as [v4|] eqn:H4;
      [|raises "min_players"].
    destruct (game !! "max_players") as [v5|] eqn:H5;
      [|raises "max_players"].
    cbn [bind]. apply IH. intros Hall. apply Hnot. constructor; [|done].
    unfold has_metadata, public_fields.
    repeat (apply Forall_cons; split; [by eexists|]). constructor.
Qed.

Lemma shows_serialisable game v :
  shows game v → (serialisable v = true ↔ json_metadata game).
Proof.
  intros (r & -> & Hdom & Hval & _). rewrite PyFacts.serialisable_dict.
  unfold json_metadata. rewrite Forall_forall. split.
  - intros Hr k Hk x Hx. apply (Hr k). by rewrite Hval.
  - intros Hg k x Hx. assert (Hk : k ∈ public_fields).
    { apply (elem_of_list_to_set (C:=gset string)). rewrite <- Hdom.
      apply elem_of_dom. by eexists. }
    apply (Hg k Hk). by rewrite <- Hval.
Qed.

Lemma response_serialisable games out :
  Forall2 shows games out →
  (serialisable (PDict (<["games" := PList out]> ∅)) = true ↔
   Forall json_metadata games).
Proof.
  intros Hsh. rewrite PyFacts.serialisable_dict.
  rewrite map_Forall_insert by apply lookup_empty.
  rewrite PyFacts.serialisable_list.
  assert (Hiff : Forall (λ v, serialisable v = true) out ↔
                 Forall json_metadata games).
  { induction Hsh as [|game v games out Hs _ IH]; [by split|].
    rewrite !Forall_cons, IH, (shows_serialisable game v Hs). done. }
  rewrite Hiff. split; [by intros [? _]|]. intros H. split; [done|].
  apply map_Forall_empty.
Qed.

(** C8.  For a registry whose entries carry the public metadata, the loop
    of the route builds one dict per entry, in the order the registry
    lists them, each holding exactly ['id'], ['name'], ['description'],
    ['min_players'] and ['max_players'] with the entry's values; the key
    ['class'] is absent.  The route answers [{'games': [...]}] with that
    list: what [jsonify] makes of it, which is the dict itself when the
    public metadata are values JSON can write. *)
Theorem available_games_public_metadata (games : list (gmap string pyval)) :
  Forall has_metadata games →
  ∃ out : list pyval,
    collect games [] = Return out ∧
    Forall2 shows games out ∧
    available_games games = jsonify (PDict (<["games" := PList out]> ∅)) ∧
    (Forall json_metadata games →
     available_games games = Return (PDict (<["games" := PList out]> ∅))).
Proof.
  intros Hall. unfold available_games.
  destruct (collect_has_metadata games [] Hall) as (out & Hc & Hout).
  rewrite Hc. cbn [bind app]. exists out.
  split; [done|]. split; [done|]. split; [done|].
  intros Hjson. apply PyFacts.jsonify_returns.
  by apply (response_serialisable games out).
Qed.

Lemma available_games_public_metadata_witness :
  ∃ out : list pyval,
    collect [Roulette.register_game] [] = Return out ∧
    Forall2 shows [Roulette.register_game] out ∧
    available_games [Roulette.register_game]
      = jsonify (PDict (<["games" := PList out]> ∅)) ∧
    (Forall json_metadata [Roulette.register_game] →
     available_games [Roulette.register_game]
       = Return (PDict (<["games" := PList out]> ∅))).
Proof.
  apply (available_games_public_metadata [Roulette.register_game]).
  apply Forall_singleton. unfold has_metadata, public_fields.
  repeat (apply Forall_cons; split; [vm_compute; by eexists|]).
  apply Forall_nil_2.
Defined.

(** The catalogue entry of the roulette plugin has metadata JSON can
    write, so for it the route returns the response. *)
Example roulette_entry_listed :
  json_metadata Roulette.register_game ∧
  ∃ out, available_games [Roulette.register_game]
           = Return (PDict (<["games" := PList out]> ∅)).
Proof.
  assert (Hj : json_metadata Roulette.register_game).
  { unfold json_metadata, public_fields.
    repeat (apply Forall_cons; split;
            [intros v Hv; vm_compute in Hv; injection Hv as <-; reflexivity|]).
    apply Forall_nil_2. }
  split; [exact Hj|].
  assert (Hm : Forall has_metadata [Roulette.register_game]).
  { apply Forall_singleton. unfold has_metadata, public_fields.
    repeat (apply Forall_cons; split; [vm_compute; by eexists|]).
    apply Forall_nil_2. }
  destruct (collect_has_metadata [Roulette.register_game] [] Hm)
    as (out & Hc & Hout).
  exists out. unfold available_games. rewrite Hc. cbn [bind app].
  apply PyFacts.jsonify_returns.
  apply (response_serialisable [Roulette.register_game] out Hout).
  apply Forall_singleton. exact Hj.
Qed.

End AppFacts.

(** * Further properties of the token store *)

Module TokenFacts.
Import Auth AuthFacts.

Lemma verify_token_result t now s :
  (verify_token (Some t) now s).1 =
    if bool_decide (t = "") then None
    else match active_tokens s !! t with
         | Some info =>
             if bool_decide (expires_at info < now)%Z then None
             else Some (account info)
         | None => None
         end.
Proof.
  unfold verify_token. case_bool_decide; [done|].
  destruct (active_tokens s !! t) as [info|]; [|done].
  by case_bool_decide.
Qed.

Lemma active_create_other a t ne nc s t' :
  t' ≠ t →
  (user_tokens s !! a = Some t' → active_tokens s !! t' = None) →
  active_tokens (create_token a t ne nc s).2 !! t' = active_tokens s !! t'.
Proof.
  intros Hne Hold. unfold create_token. cbn [snd active_tokens].
  rewrite lookup_insert_ne by done.
  destruct (user_tokens s !! a) as [old|] eqn:Hu; [|done].
  destruct (active_tokens s !! old) as [oinfo|] eqn:Ho; [|done].
  destruct (decide (old = t')) as [->|Hne'].
  - rewrite Hold in Ho by done. done.
  - by rewrite lookup_delete_ne.
Qed.

Lemma verify_token_after_create s a t ne nc now :
  t ≠ "" →
  verify_token (Some t) now (create_token a t ne nc s).2 =
    if bool_decide (ne + seven_days < now)%Z
    then (None, drop_token t (TokenInfo a nc (ne + seven_days)%Z)
                  (create_token a t ne nc s).2)
    else (Some a, (create_token a t ne nc s).2).
Proof.
  intros Ht.
  assert (Hl : active_tokens (create_token a t ne nc s).2 !! t =
               Some (TokenInfo a nc (ne + seven_days)%Z)).
  { unfold create_token. cbn [snd active_tokens]. apply lookup_insert_eq. }
  by rewrite (verify_token_present _ _ _ _ Ht Hl).
Qed.

(** A token that was just created resolves to its account up to and
    including the instant seven days after the clock reading taken for the
    expiry, and to nothing after it; a successful check changes nothing. *)
Theorem fresh_token_valid_for_seven_days
    (s : token_store) (a t : string) (ne nc now : Z) :
  t ≠ "" →
  (verify_token (Some t) now (create_token a t ne nc s).2).1 =
    (if bool_decide (now ≤ ne + seven_days)%Z then Some a else None) ∧
  ((now ≤ ne + seven_days)%Z →
   (verify_token (Some t) now (create_token a t ne nc s).2).2 =
     (create_token a t ne nc s).2).
Proof.
  intros Ht. rewrite verify_token_after_create by done. split.
  - repeat case_bool_decide; try done; lia.
  - intros Hle. by rewrite bool_decide_eq_false_2 by lia.
Qed.

Lemma fresh_token_valid_for_seven_days_witness :
  (verify_token (Some "tok") seven_days
     (create_token "alice" "tok" 0 3 empty_store).2).1 =
    (if bool_decide (seven_days ≤ 0 + seven_days)%Z then Some "alice" else None) ∧
  ((seven_days ≤ 0 + seven_days)%Z →
   (verify_token (Some "tok") seven_days
      (create_token "alice" "tok" 0 3 empty_store).2).2 =
     (create_token "alice" "tok" 0 3 empty_store).2).
Proof.
  apply (fresh_token_valid_for_seven_days empty_store "alice" "tok" 0 3
           seven_days).
  discriminate.
Defined.

(** [revoke_token] reports whether the token had a record.  Afterwards the
    token resolves to nothing at any time, and revoking it again reports
    [False] and changes nothing. *)
Theorem revoke_token_ends_session (s : token_store) (t : string) :
  ((revoke_token t s).1 = true ↔ is_Some (active_tokens s !! t)) ∧
  (active_tokens s !! t = None → revoke_token t s = (false, s)) ∧
  (∀ now, (verify_token (Some t) now (revoke_token t s).2).1 = None) ∧
  revoke_token t (revoke_token t s).2 = (false, (revoke_token t s).2).
Proof.
  assert (Hgone : active_tokens (revoke_token t s).2 !! t = None).
  { unfold revoke_token. destruct (active_tokens s !! t) eqn:Hl; [|done].
    cbn [snd active_tokens]. apply lookup_delete_eq. }
  split; [|split; [|split]].
  - unfold revoke_token. destruct (active_tokens s !! t); cbn [fst].
    + split; [by eexists|done].
    + split; [done|]. by intros [? ?].
  - intros Hl. unfold revoke_token. by rewrite Hl.
  - intros now. rewrite verify_token_result, Hgone. by case_bool_decide.
  - unfold revoke_token at 1. by rewrite Hgone.
Qed.

(** Once [verify_token] has found a token expired, the token is forgotten:
    it resolves to nothing whatever the clock reads later, revoking it
    reports [False], and no other token's record was touched. *)
Theorem expired_token_is_forgotten
    (s : token_store) (t : string) (info : token_info) (now : Z) :
  t ≠ "" → active_tokens s !! t = Some info → (expires_at info < now)%Z →
  (verify_token (Some t) now s).1 = None ∧
  (∀ now', verify_token (Some t) now' (verify_token (Some t) now s).2 =
             (None, (verify_token (Some t) now s).2)) ∧
  revoke_token t (verify_token (Some t) now s).2 =
    (false, (verify_token (Some t) now s).2) ∧
  (∀ t', t' ≠ t →
     active_tokens (verify_token (Some t) now s).2 !! t' =
       active_tokens s !! t').
Proof.
  intros Ht Hl He. rewrite (verify_token_present t now s info) by done.
  rewrite bool_decide_eq_true_2 by done. cbn [fst snd].
  assert (Hgone : active_tokens (drop_token t info s) !! t = None)
    by apply lookup_delete_eq.
  split; [done|]. split; [|split].
  - intros now'. unfold verify_token. rewrite Hgone. by case_bool_decide.
  - unfold revoke_token. by rewrite Hgone.
  - intros t' Hne. cbn [drop_token active_tokens]. by apply lookup_delete_ne.
Qed.

Lemma expired_token_is_forgotten_witness :
  let s := (create_token "alice" "tok" 0 0 empty_store).2 in
  let now := (seven_days + 1)%Z in
  (verify_token (Some "tok") now s).1 = None ∧
  (∀ now', verify_token (Some "tok") now' (verify_token (Some "tok") now s).2 =
             (None, (verify_token (Some "tok") now s).2)) ∧
  revoke_token "tok" (verify_token (Some "tok") now s).2 =
    (false, (verify_token (Some "tok") now s).2) ∧
  (∀ t', t' ≠ "tok" →
     active_tokens (verify_token (Some "tok") now s).2 !! t' =
       active_tokens s !! t').
Proof.
  apply (expired_token_is_forgotten
           (create_token "alice" "tok" 0 0 empty_store).2 "tok"
           (TokenInfo "alice" 0 seven_days) (seven_days + 1)%Z).
  - discriminate.
  - by vm_compute.
  - by vm_compute.
Defined.

Lemma current_drop s t info :
  current s → active_tokens s !! t = Some info → current (drop_token t info s).
Proof.
  intros Hc Hl t' info' Hl'. cbn [drop_token active_tokens user_tokens] in *.
  apply lookup_delete_Some in Hl' as [Hne Hl'].
  pose proof (Hc t' info' Hl') as Hu'.
  case_bool_decide as Hcur; [|done].
  rewrite lookup_delete_ne; [done|]. intros Heq. rewrite Heq in Hcur. congruence.
Qed.

Lemma current_create s a t ne nc :
  current s → current (create_token a t ne nc s).2.
Proof.
  intros Hc t' info' Hl'. unfold create_token in *.
  cbn [snd active_tokens user_tokens] in *.
  destruct (decide (t' = t)) as [->|Hne].
  - rewrite lookup_insert_eq in Hl'. injection Hl' as <-. cbn [account].
    apply lookup_insert_eq.
  - rewrite lookup_insert_ne in Hl' by done.
    assert (Hold : active_tokens s !! t' = Some info').
    { destruct (user_tokens s !! a) as [old|]; [|done].
      destruct (active_tokens s !! old); [|done].
      by apply lookup_delete_Some in Hl' as [_ ?]. }
    pose proof (Hc t' info' Hold) as Hu.
    destruct (decide (account info' = a)) as [Ha|Ha].
    + rewrite Ha in Hu. rewrite Hu, Hold in Hl'.
      by rewrite lookup_delete_eq in Hl'.
    + by rewrite lookup_insert_ne.
Qed.

Lemma current_exec s c : current s → current (exec s c).
Proof.
  intros Hc. destruct c as [a t ne nc|token now|t]; cbn [exec].
  - by apply current_create.
  - destruct (verify_token_state token now s) as [->|(t & info & _ & Hl & ->)];
      [done|by apply current_drop].
  - destruct (revoke_token_state t s) as [->|(info & Hl & ->)];
      [done|by apply current_drop].
Qed.

Lemma current_run s cs : current s → current (foldl exec s cs).
Proof.
  revert s. induction cs as [|c cs IH]; intros s Hc; [done|].
  cbn [foldl]. by apply IH, current_exec.
Qed.

(** One session per account: in every state the three operations reach
    from the empty store, each record of [active_tokens] is the current
    token of the account it names, so two different tokens never resolve
    to the same account. *)
Theorem one_token_per_account (cs : list call) :
  current (foldl exec empty_store cs) ∧
  ∀ t1 t2 now1 now2 a,
    (verify_token (Some t1) now1 (foldl exec empty_store cs)).1 = Some a →
    (verify_token (Some t2) now2 (foldl exec empty_store cs)).1 = Some a →
    t1 = t2.
Proof.
  assert (Hc : current (foldl exec empty_store cs)).
  { apply current_run. intros t info Hl.
    cbn [empty_store active_tokens] in Hl. by rewrite lookup_empty in Hl. }
  split; [done|].
  intros t1 t2 now1 now2 a (i1 & Hl1 & Ha1)%verify_token_some
    (i2 & Hl2 & Ha2)%verify_token_some.
  apply Hc in Hl1, Hl2. rewrite Ha1 in Hl1. rewrite Ha2 in Hl2. congruence.
Qed.

Lemma active_after_verify token now s t' :
  token ≠ Some t' →
  active_tokens (verify_token token now s).2 !! t' = active_tokens s !! t'.
Proof.
  intros Hne.
  destruct (verify_token_state token now s) as [->|(t & info & -> & _ & ->)];
    [done|].
  cbn [drop_token active_tokens]. apply lookup_delete_ne. congruence.
Qed.

Lemma active_after_revoke t s t' :
  t ≠ t' →
  active_tokens (revoke_token t s).2 !! t' = active_tokens s !! t'.
Proof.
  intros Hne.
  destruct (revoke_token_state t s) as [->|(info & _ & ->)]; [done|].
  cbn [drop_token active_tokens]. by apply lookup_delete_ne.
Qed.

(** Checking or revoking one token never changes what another token
    resolves to. *)
Theorem other_tokens_unaffected
    (s : token_store) (token : option string) (t t' : string) (now now' : Z) :
  token ≠ Some t' → t ≠ t' →
  (verify_token (Some t') now' (verify_token token now s).2).1 =
    (verify_token (Some t') now' s).1 ∧
  (verify_token (Some t') now' (revoke_token t s).2).1 =
    (verify_token (Some t') now' s).1.
Proof.
  intros Hne1 Hne2. rewrite !verify_token_result.
  by rewrite active_after_verify, active_after_revoke.
Qed.

Lemma other_tokens_unaffected_witness :
  let s := foldl exec empty_store
             [CreateToken "alice" "tokA" 0 0; CreateToken "bob" "tokB" 0 0] in
  (verify_token (Some "tokB") 5 (verify_token (Some "tokA") (seven_days + 1) s).2).1 =
    (verify_token (Some "tokB") 5 s).1 ∧
  (verify_token (Some "tokB") 5 (revoke_token "tokA" s).2).1 =
    (verify_token (Some "tokB") 5 s).1.
Proof.
  apply (other_tokens_unaffected
           (foldl exec empty_store
              [CreateToken "alice" "tokA" 0 0; CreateToken "bob" "tokB" 0 0])
           (Some "tokA") "tokA" "tokB" (seven_days + 1)%Z 5%Z);
    discriminate.
Defined.

(** Creating a token for one account keeps every other account's session:
    in a consistent store, a token whose record names another account
    resolves after the call as it did before. *)
Theorem create_token_keeps_other_sessions
    (s : token_store) (a t : string) (ne nc : Z)
    (t' : string) (info' : token_info) (now : Z) :
  consistent s → t' ≠ t →
  active_tokens s !! t' = Some info' → account info' ≠ a →
  (verify_token (Some t') now (create_token a t ne nc s).2).1 =
    (verify_token (Some t') now s).1.
Proof.
  intros Hc Hne Hl Ha. rewrite !verify_token_result.
  rewrite active_create_other; [done..|].
  intros Hu. destruct (Hc a t' Hu) as (i & Hi & Hai). congruence.
Qed.

Lemma create_token_keeps_other_sessions_witness :
  let s := (create_token "bob" "tokB" 0 0 empty_store).2 in
  (verify_token (Some "tokB") 5 (create_token "alice" "tokA" 1 1 s).2).1 =
    (verify_token (Some "tokB") 5 s).1.
Proof.
  apply (create_token_keeps_other_sessions
           (create_token "bob" "tokB" 0 0 empty_store).2 "alice" "tokA" 1 1
           "tokB" (TokenInfo "bob" 0 seven_days) 5%Z).
  - apply consistent_create; [apply consistent_empty|done].
  - discriminate.
  - by vm_compute.
  - discriminate.
Defined.

End TokenFacts.

(** * Further properties of the user store and of login *)

Module UserFacts.
Import Auth AuthFacts TokenFacts.

(** *** Registration *)



Lemma register_user_accepted fr hashed w account password game_id f users h :
  py_truthy account = true → py_truthy password = true →
  py_truthy game_id = true →
  load_users f = Return users → in_users account users = Return false →
  hashed = Return h →
  register_user fr hashed w account password game_id f =
    (Return (<["ok" := PBool true]> (<["msg" := PStr "注册成功"]> ∅)),
     save_users (dump_with_new_user fr account game_id h users) w f).
Proof.
  intros Ha Hp Hg Hl Hin ->. unfold register_user.
  rewrite Ha, Hp, Hg. cbn [negb orb]. by rewrite Hl, Hin.
Qed.






(** A file that cannot be read (for one, bytes that are not UTF-8) makes
    every function that loads it raise the exception of the read, with
    the file and the token store left as they were. *)
Lemma unreadable_file_raises fr check e :
  get_user "alice" (Unreadable e) = Raise e ∧
  update_user_room WriteOk "alice" None (Unreadable e) =
    (Raise e, Unreadable e) ∧
  login_user check "alice" "pw" "tok" 0 0 (Unreadable e) empty_store =
    (Raise e, empty_store) ∧
  register_user fr (Return "h") WriteOk (PStr "alice") (PStr "pw") (PStr "Al")
    (Unreadable e) = (Raise e, Unreadable e).
Proof. done. Qed.

Example undecodable_file : load_users (Unreadable UnicodeDecodeError)
  = Raise UnicodeDecodeError.
Proof. done. Qed.

(** *** Login *)

Lemma login_user_cases check a pw tok ne nc f s :
  login_user check a pw tok ne nc f s = (Return (refusal "用户不存在"), s) ∨
  login_user check a pw tok ne nc f s = (Return (refusal "密码错误"), s) ∨
  (∃ e, login_user check a pw tok ne nc f s = (Raise e, s)) ∨
  (∃ users user, load_users f = Return users ∧ users !! a = Some user ∧
     user !! "ID" = None ∧
     login_user check a pw tok ne nc f s =
       (Raise (KeyError "ID"), (create_token a tok ne nc s).2)) ∨
  (∃ users user id, load_users f = Return users ∧ users !! a = Some user ∧
     user !! "ID" = Some id ∧
     login_user check a pw tok ne nc f s =
       (Return (login_ok (user_info a id (default PNone (user !! "room"))) tok),
        (create_token a tok ne nc s).2)).
Proof.
  unfold login_user.
  destruct (load_users f) as [users|e] eqn:Hl;
    [|right; right; left; by eexists].
  destruct (users !! a) as [user|] eqn:Hu; [|by left].
  case_bool_decide; [by left|]. unfold getitem.
  destruct (user !! "password") as [h|]; [|right; right; left; by eexists].
  destruct (check h pw) as [[|]|e];
    [|by right; left|right; right; left; by eexists].
  cbn [create_token]. destruct (user !! "ID") as [id|] eqn:Hid.
  - do 4 right. by exists users, user, id.
  - do 3 right. left. by exists users, user.
Qed.

(** A refused login (unknown account, empty record, wrong password)
    answers [ok = False] with one of the two messages, hands out no token
    and user data, and leaves the token store as it was; an account that
    is not stored is always refused. *)
Theorem login_user_refusal_changes_nothing
    (check : pyval → string → outcome bool) (a pw tok : string) (ne nc : Z)
    (f : user_file) (s : token_store)
    (r : gmap string pyval) (s' : token_store) :
  login_user check a pw tok ne nc f s = (Return r, s') →
  r !! "ok" = Some (PBool false) →
  s' = s ∧ r !! "token" = None ∧ r !! "user" = None ∧
  (r !! "msg" = Some (PStr "用户不存在") ∨ r !! "msg" = Some (PStr "密码错误")).
Proof.
  intros Hlogin Hok.
  destruct (login_user_cases check a pw tok ne nc f s)
    as [H|[H|[(e & H)|[(us & u & _ & _ & _ & H)|(us & u & id & _ & _ & _ & H)]]]];
    rewrite H in Hlogin; try discriminate; injection Hlogin as <- <-.
  - repeat split; try done. by left.
  - repeat split; try done. by right.
  - by vm_compute in Hok.
Qed.

Lemma login_user_refusal_changes_nothing_witness :
  let f := Stored (<["alice" := new_user (PStr "alice") (PStr "Al") "secret"]> ∅) in
  let s := (create_token "alice" "tok0" 0 0 empty_store).2 in
  s = s ∧ refusal "密码错误" !! "token" = None ∧
  refusal "密码错误" !! "user" = None ∧
  (refusal "密码错误" !! "msg" = Some (PStr "用户不存在") ∨
   refusal "密码错误" !! "msg" = Some (PStr "密码错误")).
Proof.
  apply (login_user_refusal_changes_nothing
           (λ (h : pyval) (p : string),
              match h with
              | PStr x => Return (String.eqb x p)
              | _ => Raise (AttributeError "count")
              end)
           "alice" "guess" "tok1" 9 9
           (Stored (<["alice" := new_user (PStr "alice") (PStr "Al") "secret"]> ∅))
           (create_token "alice" "tok0" 0 0 empty_store).2).
  - by vm_compute.
  - by vm_compute.
Defined.

(** A login that goes through answers exactly [ok], [msg], [user] and
    [token]; [user] holds exactly [account], [ID] and [room] (never the
    ['password'] entry of the record); the token is the generated one and
    the token store is the one [create_token] leaves. *)
Theorem login_user_success_shape
    (check : pyval → string → outcome bool) (a pw tok : string) (ne nc : Z)
    (f : user_file) (s : token_store)
    (r : gmap string pyval) (s' : token_store) :
  login_user check a pw tok ne nc f s = (Return r, s') →
  r !! "ok" = Some (PBool true) →
  dom r = list_to_set ["ok"; "msg"; "user"; "token"] ∧
  r !! "token" = Some (PStr tok) ∧
  s' = (create_token a tok ne nc s).2 ∧
  ∃ info users user,
    r !! "user" = Some (PDict info) ∧
    load_users f = Return users ∧ users !! a = Some user ∧
    dom info = list_to_set ["account"; "ID"; "room"] ∧
    info !! "account" = Some (PStr a) ∧
    info !! "ID" = user !! "ID" ∧
    info !! "room" = Some (default PNone (user !! "room")).
Proof.
  intros Hlogin Hok.
  destruct (login_user_cases check a pw tok ne nc f s)
    as [H|[H|[(e & H)|[(us & u & _ & _ & _ & H)|(us & u & id & Hl & Hu & Hid & H)]]]];
    rewrite H in Hlogin; try discriminate; injection Hlogin as <- <-;
    try by vm_compute in Hok.
  split; [|split; [done|split; [done|]]].
  - unfold login_ok. rewrite !dom_insert_L, dom_empty_L. reflexivity.
  - eexists _, us, u. split; [reflexivity|]. split; [done|]. split; [done|].
    split; [|split; [done|]].
    + unfold user_info. rewrite !dom_insert_L, dom_empty_L. reflexivity.
    + by rewrite Hid.
Qed.

Lemma login_user_success_shape_witness :
  let f := Stored (<["alice" := new_user (PStr "alice") (PStr "Al") "secret"]> ∅) in
  let r := login_ok (user_info "alice" (PStr "Al") PNone) "tok1" in
  dom r = list_to_set ["ok"; "msg"; "user"; "token"] ∧
  r !! "token" = Some (PStr "tok1") ∧
  (create_token "alice" "tok1" 9 9 empty_store).2 =
    (create_token "alice" "tok1" 9 9 empty_store).2 ∧
  ∃ info users user,
    r !! "user" = Some (PDict info) ∧
    load_users f = Return users ∧ users !! "alice" = Some user ∧
    dom info = list_to_set ["account"; "ID"; "room"] ∧
    info !! "account" = Some (PStr "alice") ∧
    info !! "ID" = user !! "ID" ∧
    info !! "room" = Some (default PNone (user !! "room")).
Proof.
  apply (login_user_success_shape
           (λ (h : pyval) (p : string),
              match h with
              | PStr x => Return (String.eqb x p)
              | _ => Raise (AttributeError "count")
              end)
           "alice" "secret" "tok1" 9 9
           (Stored (<["alice" := new_user (PStr "alice") (PStr "Al") "secret"]> ∅))
           empty_store).
  - by vm_compute.
  - by vm_compute.
Defined.

Lemma login_user_accepts check a pw tok ne nc f s users user h id :
  load_users f = Return users → users !! a = Some user →
  user !! "password" = Some h → user !! "ID" = Some id →
  check h pw = Return true →
  login_user check a pw tok ne nc f s =
    (Return (login_ok (user_info a id (default PNone (user !! "room"))) tok),
     (create_token a tok ne nc s).2).
Proof.
  intros Hl Hu Hp Hid Hc. unfold login_user. rewrite Hl, Hu.
  rewrite bool_decide_eq_false_2 by (intros ->; by rewrite lookup_empty in Hp).
  unfold getitem. by rewrite Hp, Hc, Hid.
Qed.

(** Register, then log in with the same password: if the password check
    accepts the typed password against the stored hash, the login goes
    through with the registered display id and no room, and the token it
    returns resolves to the account for the next seven days. *)
Theorem register_then_login
    (fr : Z → string) (check : pyval → string → outcome bool)
    (h a pw gid tok : string) (ne nc now : Z)
    (f : user_file) (users : gmap string (gmap string pyval))
    (s : token_store) :
  a ≠ "" → pw ≠ "" → gid ≠ "" →
  load_users f = Return users → users !! a = None →
  check (PStr h) pw = Return true →
  tok ≠ "" → (now ≤ ne + seven_days)%Z →
  ∃ s',
    login_user check a pw tok ne nc
      (register_user fr (Return h) WriteOk (PStr a) (PStr pw) (PStr gid) f).2 s =
      (Return (login_ok (user_info a (PStr gid) PNone) tok), s') ∧
    (verify_token (Some tok) now s').1 = Some a.
Proof.
  intros Ha Hp Hg Hl Hu Hc Ht Hnow.
  rewrite (register_user_accepted fr _ _ _ _ _ f users h); try done.
  2-4: cbn [py_truthy]; by rewrite bool_decide_eq_false_2.
  2: { cbn [in_users]. rewrite bool_decide_eq_false_2; [done|].
       rewrite Hu. by intros [? ?]. }
  cbn [snd dump_with_new_user json_key serialisable andb save_users].
  eexists. split.
  - rewrite (login_user_accepts check a pw tok ne nc _ s
               (<[a := new_user (PStr a) (PStr gid) h]> users)
               (new_user (PStr a) (PStr gid) h) (PStr h) (PStr gid));
      [done|done|apply lookup_insert_eq|done|done|done].
  - rewrite verify_token_after_create by done.
    by rewrite bool_decide_eq_false_2 by lia.
Qed.

Lemma register_then_login_witness :
  ∃ s',
    login_user (λ (h : pyval) (p : string),
              match h with
              | PStr x => Return (String.eqb x p)
              | _ => Raise (AttributeError "count")
              end) "alice" "pw" "tok1" 0 0
      (register_user (λ _, "") (Return "pw") WriteOk
         (PStr "alice") (PStr "pw") (PStr "Al") NoFile).2
      empty_store =
      (Return (login_ok (user_info "alice" (PStr "Al") PNone) "tok1"), s') ∧
    (verify_token (Some "tok1") 5 s').1 = Some "alice".
Proof.
  apply (register_then_login (λ _, "")
           (λ (h : pyval) (p : string),
              match h with
              | PStr x => Return (String.eqb x p)
              | _ => Raise (AttributeError "count")
              end)
           "pw" "alice" "pw" "Al" "tok1" 0 0 5 NoFile ∅ empty_store);
    try discriminate; by vm_compute.
Defined.

(** A stored record without ['ID'] makes a login with the right password
    raise [KeyError], after the new token has been stored: the account's
    earlier token is gone although no answer was returned. *)
Theorem login_user_raises_after_token
    (check : pyval → string → outcome bool) (a pw tok : string) (ne nc : Z)
    (f : user_file) (s : token_store)
    (users : gmap string (gmap string pyval))
    (user : gmap string pyval) (h : pyval) :
  load_users f = Return users → users !! a = Some user →
  user !! "password" = Some h → user !! "ID" = None →
  check h pw = Return true →
  login_user check a pw tok ne nc f s =
    (Raise (KeyError "ID"), (create_token a tok ne nc s).2) ∧
  user_tokens (create_token a tok ne nc s).2 !! a = Some tok.
Proof.
  intros Hl Hu Hp Hid Hc. split.
  - unfold login_user. rewrite Hl, Hu.
    rewrite bool_decide_eq_false_2 by (intros ->; by rewrite lookup_empty in Hp).
    unfold getitem. by rewrite Hp, Hc, Hid.
  - unfold create_token. cbn [snd user_tokens]. apply lookup_insert_eq.
Qed.

Lemma login_user_raises_after_token_witness :
  let f := Stored (<["alice" := <["password" := PStr "pw"]> ∅]> ∅) in
  login_user (λ (h : pyval) (p : string),
              match h with
              | PStr x => Return (String.eqb x p)
              | _ => Raise (AttributeError "count")
              end) "alice" "pw" "tok1" 0 0 f empty_store =
    (Raise (KeyError "ID"), (create_token "alice" "tok1" 0 0 empty_store).2) ∧
  user_tokens (create_token "alice" "tok1" 0 0 empty_store).2 !! "alice"
    = Some "tok1".
Proof.
  apply (login_user_raises_after_token
           (λ (h : pyval) (p : string),
              match h with
              | PStr x => Return (String.eqb x p)
              | _ => Raise (AttributeError "count")
              end)
           "alice" "pw" "tok1" 0 0
           (Stored (<["alice" := <["password" := PStr "pw"]> ∅]> ∅))
           empty_store (<["alice" := <["password" := PStr "pw"]> ∅]> ∅)
           (<["password" := PStr "pw"]> ∅) (PStr "pw"));
    by vm_compute.
Defined.

(** *** Room pointers *)

(** [update_user_room] answers [False] and leaves the file alone for an
    account that is not stored.  For a stored account it answers [True]
    whether or not the write goes through: if it does, that record's
    ['room'] is the given room (or [None]), the record's other entries
    and every other record are kept; if it fails, the file is whatever
    the failed write left. *)
Theorem update_user_room_sets_only_room
    (a : string) (room : option string) (f : user_file)
    (users : gmap string (gmap string pyval)) :
  load_users f = Return users →
  (users !! a = None → ∀ w, update_user_room w a room f = (Return false, f)) ∧
  (∀ user, users !! a = Some user →
     (∀ remains, update_user_room (WriteFails remains) a room f =
                   (Return true, remains)) ∧
     (update_user_room WriteOk a room f).1 = Return true ∧
     ∃ users' user',
       (update_user_room WriteOk a room f).2 = Stored users' ∧
       users' !! a = Some user' ∧
       user' !! "room" =
         Some (match room with Some r => PStr r | None => PNone end) ∧
       (∀ k, k ≠ "room" → user' !! k = user !! k) ∧
       (∀ b, b ≠ a → users' !! b = users !! b)).
Proof.
  intros Hl. unfold update_user_room. rewrite Hl. split.
  - by intros ->.
  - intros user ->. cbn [fst snd save_users]. split; [done|]. split; [done|].
    eexists _, _. split; [reflexivity|].
    split; [apply lookup_insert_eq|]. split; [apply lookup_insert_eq|].
    split.
    + intros k Hk. by apply lookup_insert_ne.
    + intros b Hb. by apply lookup_insert_ne.
Qed.

Lemma update_user_room_sets_only_room_witness :
  let users : gmap string (gmap string pyval) :=
    <["alice" := new_user (PStr "alice") (PStr "Al") "h1"]> ∅ in
  let a := "alice" in let room := Some "r7" in let f := Stored users in
  (users !! a = None → ∀ w, update_user_room w a room f = (Return false, f)) ∧
  (∀ user, users !! a = Some user →
     (∀ remains, update_user_room (WriteFails remains) a room f =
                   (Return true, remains)) ∧
     (update_user_room WriteOk a room f).1 = Return true ∧
     ∃ users' user',
       (update_user_room WriteOk a room f).2 = Stored users' ∧
       users' !! a = Some user' ∧
       user' !! "room" =
         Some (match room with Some r => PStr r | None => PNone end) ∧
       (∀ k, k ≠ "room" → user' !! k = user !! k) ∧
       (∀ b, b ≠ a → users' !! b = users !! b)).
Proof.
  apply (update_user_room_sets_only_room "alice" (Some "r7")
           (Stored (<["alice" := new_user (PStr "alice") (PStr "Al") "h1"]> ∅))
           (<["alice" := new_user (PStr "alice") (PStr "Al") "h1"]> ∅)).
  reflexivity.
Defined.

(** Room pointers do not survive a restart: [init_users] on a store in
    which [update_user_room] has set a room gives the same store as
    [init_users] on the store before the update; so it does when the
    write of the update failed and left the file untouched. *)
Theorem init_users_forgets_update_user_room
    (data : gmap string (gmap string pyval)) (a : string) (room : option string) :
  (∃ data',
     (update_user_room WriteOk a room (Stored data)).2 = Stored data' ∧
     load_users (update_user_room WriteOk a room (Stored data)).2 = Return data' ∧
     init_users (Some data') = init_users (Some data)) ∧
  (update_user_room (WriteFails (Stored data)) a room (Stored data)).2 =
    Stored data.
Proof.
  unfold update_user_room, init_users. cbn [load_users].
  destruct (data !! a) as [user|] eqn:Hu; cbn [snd save_users load_users].
  - split; [|done]. eexists. split; [reflexivity|]. split; [reflexivity|].
    f_equal. rewrite fmap_insert, insert_insert_eq.
    apply insert_id. by rewrite lookup_fmap, Hu.
  - split; [|done]. by exists data.
Qed.

(** Running [init_users] a second time changes nothing: after the first
    run the file exists and every room is already [None]. *)
Theorem init_users_idempotent
    (file : option (gmap string (gmap string pyval))) :
  init_users (init_users file) = init_users file.
Proof.
  destruct file as [data|]; cbn [init_users]; [|by rewrite fmap_empty].
  f_equal. rewrite <- map_fmap_compose. apply map_fmap_ext.
  intros acct user _. cbn. apply insert_insert_eq.
Qed.

End UserFacts.

(** * Further properties of the roulette plugin *)

Module RouletteMore.
Import OrderedDict OrderedDictFacts Roulette RouletteFacts.

Lemma get_cons {V} k x (v : V) d :
  get k ((x, v) :: d) = if decide (x = k) then Some v else get k d.
Proof.
  unfold get. cbn [list_find fst]. destruct (decide (x = k)); [done|].
  by destruct (list_find _ d) as [[? [? ?]]|].
Qed.

Lemma get_delitem_ne {V} k a (d : list (string * V)) :
  k ≠ a → get k (delitem a d) = get k d.
Proof.
  intros Hne. unfold delitem. induction d as [|[x v] d IH]; [done|].
  rewrite filter_cons. cbn [fst]. destruct (decide (x ≠ a)) as [Hx|Hx].
  - rewrite !get_cons. by rewrite IH.
  - rewrite get_cons, IH. destruct (decide (x = k)); [|done].
    destruct Hx. congruence.
Qed.

Lemma delitem_app_new {V} a (v : V) d :
  a ∉ keys d → delitem a (d ++ [(a, v)]) = d.
Proof.
  intros Ha. unfold delitem. rewrite filter_app.
  fold (delitem a d). rewrite delitem_absent by done.
  rewrite filter_cons. cbn [fst]. rewrite decide_False by (by intros []).
  by rewrite filter_nil, app_nil_r.
Qed.

(** [leave] removes exactly the given account: it is gone afterwards,
    every other player keeps its record (display id and order number: the
    rest is not renumbered), and leaving once more changes nothing. *)
Theorem leave_removes_only_that_account (g : RouletteGame) (a : string) :
  (a ∉ keys (players (leave g a))) ∧
  (∀ b, b ≠ a → get b (players (leave g a)) = get b (players g)) ∧
  leave (leave g a) a = leave g a ∧
  started (leave g a) = started g.
Proof.
  assert (Hgone : a ∉ keys (players (leave g a))).
  { rewrite players_leave, elem_of_keys_delitem. by intros [_ ?]. }
  split; [done|]. split; [|split].
  - intros b Hb. rewrite players_leave. by apply get_delitem_ne.
  - by apply leave_absent.
  - unfold leave. destruct (contains a (players g)); [|done].
    destruct (bool_decide _ && truthy _); [|done].
    by destruct (first_key _).
Qed.

(** Joining and leaving again is a round trip: for an account that is not
    present, on an instance whose host is another account, [join] followed
    by [leave] gives back the instance. *)
Theorem join_then_leave_restores (g : RouletteGame) (a p h : string) :
  a ∉ keys (players g) → host g = Some h → h ≠ a →
  leave (join g a p).2 a = g.
Proof.
  intros Ha Hh Hne. rewrite join_absent by done. cbn [snd].
  unfold leave. cbn [players host set_players].
  rewrite (proj2 (contains_true a _))
    by (unfold keys; rewrite fmap_app; apply elem_of_app; right;
        apply list_elem_of_here).
  rewrite delitem_app_new by done. rewrite Hh. cbn [default from_option id].
  rewrite bool_decide_eq_false_2 by congruence. cbn [andb].
  destruct g; cbn in *. by rewrite Hh.
Qed.

Lemma join_then_leave_restores_witness :
  let g := (join (init "r1") "A" "a").2 in
  leave (join g "B" "b").2 "B" = g.
Proof.
  apply (join_then_leave_restores (join (init "r1") "A" "a").2 "B" "b" "A").
  - vm_compute. intros H%list_elem_of_singleton. discriminate.
  - reflexivity.
  - discriminate.
Defined.

(** The host is not cleared when the last player leaves: the instance is
    left without players but with the departed account as host, and
    whoever joins next gets order number 1 without becoming host. *)
Theorem last_player_leaves_host_stays
    (g : RouletteGame) (h : string) (v : player) (b p : string) :
  players g = [(h, v)] → host g = Some h →
  players (leave g h) = [] ∧
  host (leave g h) = Some h ∧
  (join (leave g h) b p).1 = Some 1 ∧
  keys (players (join (leave g h) b p).2) = [b] ∧
  host (join (leave g h) b p).2 = Some h.
Proof.
  intros Hp Hh.
  assert (Hl : leave g h = set_players [] g).
  { unfold leave, contains, keys. rewrite Hp. cbn [fmap list_fmap fst].
    rewrite bool_decide_eq_true_2 by apply list_elem_of_here.
    unfold delitem. rewrite filter_cons. cbn [fst].
    rewrite decide_False by (by intros []). rewrite filter_nil.
    cbn [players set_players truthy]. by rewrite andb_false_r. }
  rewrite Hl. cbn [players set_players host]. split; [done|]. split; [done|].
  rewrite join_absent by (cbn; apply not_elem_of_nil).
  cbn [fst snd players host set_players length]. rewrite Hh. done.
Qed.

Lemma last_player_leaves_host_stays_witness :
  let g := (join (init "r1") "A" "a").2 in
  players (leave g "A") = [] ∧
  host (leave g "A") = Some "A" ∧
  (join (leave g "A") "B" "b").1 = Some 1 ∧
  keys (players (join (leave g "A") "B" "b").2) = ["B"] ∧
  host (join (leave g "A") "B" "b").2 = Some "A".
Proof.
  apply (last_player_leaves_host_stays (join (init "r1") "A" "a").2 "A"
           (Player "a" 1) "B" "b"); reflexivity.
Defined.

(** *** What no call undoes *)

Lemma handle_event_state py_str g a data : (handle_event py_str g a data).2 = g.
Proof. done. Qed.

Lemma join_keeps_flags g a p :
  started (join g a p).2 = started g ∧ room_id (join g a p).2 = room_id g ∧
  game_type (join g a p).2 = game_type g.
Proof.
  unfold join. destruct (contains a (players g)); [done|].
  by destruct (host g).
Qed.

Lemma leave_keeps_flags g a :
  started (leave g a) = started g ∧ room_id (leave g a) = room_id g ∧
  game_type (leave g a) = game_type g.
Proof.
  unfold leave. destruct (contains a (players g)); [|done].
  destruct (bool_decide _ && truthy _); [|done].
  by destruct (first_key _).
Qed.

Lemma start_keeps_rest g :
  players (start g).2 = players g ∧ host (start g).2 = host g ∧
  room_id (start g).2 = room_id g ∧ game_type (start g).2 = game_type g ∧
  (started g = true → started (start g).2 = true).
Proof. unfold start. by case_bool_decide. Qed.

(** Whatever is called on an instance, in whatever order, its room id and
    game type stay, and a started game stays started (also after its last
    player has left, when [start] itself answers [False]); without a call
    of [start] the started flag does not change at all. *)
Theorem started_is_never_reset
    (py_str : pyval → string) (g : RouletteGame) (xs : list action) :
  room_id (foldl (perform py_str) g xs) = room_id g ∧
  game_type (foldl (perform py_str) g xs) = game_type g ∧
  (started g = true → started (foldl (perform py_str) g xs) = true) ∧
  (Forall (λ x, x ≠ DoStart) xs →
   started (foldl (perform py_str) g xs) = started g).
Proof.
  revert g. induction xs as [|x xs IH]; intros g; [done|].
  cbn [foldl]. destruct (IH (perform py_str g x)) as (Hr & Hg & Hs & Hn).
  rewrite Hr, Hg.
  assert (Hstep : room_id (perform py_str g x) = room_id g ∧
                  game_type (perform py_str g x) = game_type g ∧
                  (started g = true → started (perform py_str g x) = true) ∧
                  (x ≠ DoStart → started (perform py_str g x) = started g)).
  { destruct x as [a p|a| |a d]; cbn [perform].
    - destruct (join_keeps_flags g a p) as (-> & -> & ->). done.
    - destruct (leave_keeps_flags g a) as (-> & -> & ->). done.
    - destruct (start_keeps_rest g) as (_ & _ & -> & -> & ?). done.
    - done. }
  destruct Hstep as (-> & -> & Hs1 & Hn1).
  split; [done|]. split; [done|]. split.
  - intros Hst. by apply Hs, Hs1.
  - intros [Hx Hxs]%Forall_cons. by rewrite Hn, Hn1.
Qed.

Lemma host_none_run g ops :
  host (run g ops) = None ↔ host g = None ∧ successful_orders g ops = [].
Proof.
  revert g. induction ops as [|[a p|a] ops IH]; intros g.
  - cbn. tauto.
  - rewrite run_cons, successful_orders_join, IH. cbn [step].
    destruct (decide (a ∈ keys (players g))) as [Hin|Hout].
    + by rewrite join_present.
    + rewrite join_absent by done. cbn [fst snd host].
      split; [by intros [? _]|by intros [_ ?]].
  - rewrite run_cons, successful_orders_leave, IH. cbn [step].
    assert (host (leave g a) = None ↔ host g = None) as ->; [|done].
    unfold leave. destruct (contains a (players g)); [|done].
    cbn [host set_players players].
    destruct (bool_decide _ && truthy _) eqn:Hb; [|done].
    apply andb_true_iff in Hb as [Hb _]. apply bool_decide_eq_true in Hb.
    destruct (first_key _); cbn [host set_host]; [|done].
    split; [done|]. intros Hn. rewrite Hn in Hb. done.
Qed.

(** The host is never cleared: in a run of joins and leaves on a new
    instance there is no host exactly as long as no join has succeeded. *)
Theorem host_is_never_cleared (rid : string) (ops : list op) :
  host (run (init rid) ops) = None ↔ successful_orders (init rid) ops = [].
Proof. rewrite host_none_run. cbn [init host]. tauto. Qed.

(** *** Order numbers and positions *)

Lemma filter_lookup_ge {A} (P : A → Prop) `{∀ x, Decision (P x)}
    (l : list A) j x :
  filter P l !! j = Some x → ∃ i, j ≤ i ∧ l !! i = Some x.
Proof.
  revert j. induction l as [|y l IH]; intros j Hj; [done|].
  rewrite filter_cons in Hj. destruct (decide (P y)).
  - destruct j as [|j].
    + exists 0. split; [lia|]. done.
    + destruct (IH j Hj) as (i & Hi & Hl). exists (S i). split; [lia|done].
  - destruct (IH j Hj) as (i & Hi & Hl). exists (S i). split; [lia|done].
Qed.

Lemma position_below_order_run g ops :
  (∀ i a v, players g !! i = Some (a, v) → i < order v) →
  ∀ i a v, players (run g ops) !! i = Some (a, v) → i < order v.
Proof.
  revert g. induction ops as [|[b p|b] ops IH]; intros g Hg; [done| |];
    rewrite run_cons; apply IH; cbn [step]; intros i a v Hl.
  - destruct (decide (b ∈ keys (players g))) as [Hin|Hout].
    + rewrite join_present in Hl by done. by eapply Hg.
    + rewrite join_absent in Hl by done. cbn [snd players] in Hl.
      apply lookup_app_Some in Hl as [Hl|[Hge Hl]]; [by eapply Hg|].
      apply list_lookup_singleton_Some in Hl as [Hi [= _ <-]].
      cbn [order]. lia.
  - rewrite players_leave in Hl.
    apply filter_lookup_ge in Hl as (i' & Hi & Hl).
    apply Hg in Hl. lia.
Qed.

(** In every instance reached by joins and leaves from a new one, the
    accounts in [players] are pairwise distinct and the order number of
    the player at (1-based) position [i] is at least [i]. *)
Theorem order_at_least_position (rid : string) (ops : list op) :
  NoDup (keys (players (run (init rid) ops))) ∧
  ∀ i a v, players (run (init rid) ops) !! i = Some (a, v) → i + 1 ≤ order v.
Proof.
  split.
  - by destruct (chronological_run (init rid) 0 ∅ ops (chronological_init rid)).
  - intros i a v Hl. enough (i < order v) by lia.
    eapply position_below_order_run; [|exact Hl]. by intros ? ? ? ?.
Qed.

(** *** Events *)

Lemma eq_str_true x s : eq_str x s = true ↔ x = PStr s.
Proof.
  destruct x; cbn [eq_str]; try by split.
  rewrite bool_decide_eq_true. split; [by intros ->|by intros [= ->]].
Qed.

(** [handle_event] never changes the instance.  It answers exactly the
    payloads that are a dict naming another event, or a ['test_input']
    whose ['event_data'] is missing or a dict; on every other payload
    (not a dict, or ['event_data'] a string, a number, a list, [None])
    it raises [AttributeError]. *)
Theorem handle_event_raises_on_bad_payload
    (py_str : pyval → string) (g : RouletteGame) (a : string) (data : pyval) :
  (handle_event py_str g a data).2 = g ∧
  ((∃ r, (handle_event py_str g a data).1 = Return r) ↔ answerable data) ∧
  (¬ answerable data →
   (handle_event py_str g a data).1 = Raise (AttributeError "get")).
Proof.
  split; [done|]. unfold handle_event, answerable. cbn [fst].
  destruct data as [| | | | | |d|];
    try (split; [split; [by intros [? ?]|by intros (? & ? & _)]|done]).
  cbn [py_get bind].
  destruct (eq_str (default PNone (d !! "event_name")) "test_input") eqn:He.
  - apply eq_str_true in He.
    assert (Hn : d !! "event_name" = Some (PStr "test_input"))
      by (by destruct (d !! "event_name"); simplify_eq/=).
    destruct (d !! "event_data") as [v|] eqn:Hd.
    + destruct v as [| | | | | |e|]; cbn [default from_option id py_get bind];
        try (split; [split; [by intros [? ?]|
               intros (? & [= <-] & [?|[?|(? & ?)]]); congruence]|done]).
      split; [split; [|by eexists]|].
      * intros _. exists d. split; [done|]. right. right. by exists e.
      * intros Hnot. destruct Hnot. exists d. split; [done|]. right. right. by exists e.
    + cbn [default from_option id py_get bind].
      split; [split; [|by eexists]|].
      * intros _. exists d. split; [done|]. right. by left.
      * intros Hnot. destruct Hnot. exists d. split; [done|]. right. by left.
  - assert (Hn : d !! "event_name" ≠ Some (PStr "test_input")).
    { intros Hn. rewrite Hn in He. cbn in He. by rewrite bool_decide_eq_true_2 in He. }
    split; [split; [|by eexists]|].
    + intros _. exists d. split; [done|]. by left.
    + intros Hnot. destruct Hnot. exists d. split; [done|]. by left.
Qed.

(** The answer to a ['test_input'] event: ['echo'] is the value under
    ['input'] whatever its type, ['timestamp'] the value under
    ['timestamp'], each the empty string when missing (also when there is
    no ['event_data'] at all); the message names the sender and the
    input; the answer has exactly the five keys. *)
Theorem test_input_reply
    (py_str : pyval → string) (g : RouletteGame) (a : string)
    (d e : gmap string pyval) :
  d !! "event_name" = Some (PStr "test_input") →
  d !! "event_data" = Some (PDict e) ∨ (d !! "event_data" = None ∧ e = ∅) →
  ∃ r : gmap string pyval,
    (handle_event py_str g a (PDict d)).1 = Return r ∧
    r !! "echo" = Some (default (PStr "") (e !! "input")) ∧
    r !! "timestamp" = Some (default (PStr "") (e !! "timestamp")) ∧
    r !! "msg" =
      Some (PStr ("后端收到来自 " +:+ a +:+ " 的消息: "
                  +:+ fmt py_str (default (PStr "") (e !! "input")))) ∧
    dom r = list_to_set ["ok"; "msg"; "echo"; "timestamp"; "broadcast"].
Proof.
  intros Hn Hd.
  assert (Hdata : py_get (PDict d) "event_data" (PDict ∅) = Return (PDict e)).
  { cbn [py_get]. destruct Hd as [->|[-> ->]]; done. }
  eexists. split.
  - unfold handle_event. cbn [fst]. rewrite Hdata.
    cbn [py_get bind]. rewrite Hn. cbn [default from_option id eq_str].
    rewrite bool_decide_eq_true_2 by done. reflexivity.
  - split; [by rewrite !lookup_insert_ne, lookup_insert_eq by done|].
    split; [by rewrite !lookup_insert_ne, lookup_insert_eq by done|].
    split; [by rewrite lookup_insert_ne, lookup_insert_eq by done|].
    rewrite !dom_insert_L, dom_empty_L. reflexivity.
Qed.

Lemma test_input_reply_witness :
  ∃ r : gmap string pyval,
    (handle_event (λ _, "7") (init "r1") "bob"
       (PDict (<["event_name" := PStr "test_input"]>
               (<["event_data" := PDict (<["input" := PInt 7]> ∅)]> ∅)))).1
      = Return r ∧
    r !! "echo" = Some (default (PStr "") ((<["input" := PInt 7]> ∅ : gmap string pyval) !! "input")) ∧
    r !! "timestamp" = Some (default (PStr "") ((<["input" := PInt 7]> ∅ : gmap string pyval) !! "timestamp")) ∧
    r !! "msg" =
      Some (PStr ("后端收到来自 " +:+ "bob" +:+ " 的消息: "
                  +:+ fmt (λ _, "7") (default (PStr "") ((<["input" := PInt 7]> ∅ : gmap string pyval) !! "input")))) ∧
    dom r = list_to_set ["ok"; "msg"; "echo"; "timestamp"; "broadcast"].
Proof.
  apply (test_input_reply (λ _, "7") (init "r1") "bob"
           (<["event_name" := PStr "test_input"]>
            (<["event_data" := PDict (<["input" := PInt 7]> ∅)]> ∅))
           (<["input" := PInt 7]> ∅)).
  - by vm_compute.
  - left. by vm_compute.
Defined.

End RouletteMore.

(** * Further properties of the discovery route *)

Module AppMore.
Import App AppFacts.

(** The route answers exactly when every registry entry carries the five
    public fields with values JSON can write; an entry without one of them
    makes it raise [KeyError] for that field, and a value the encoder
    cannot write (a class object) makes [jsonify] raise [TypeError]. *)
Theorem available_games_answers_iff (games : list (gmap string pyval)) :
  ((∃ v, available_games games = Return v) ↔
     Forall has_metadata games ∧ Forall json_metadata games) ∧
  (¬ Forall has_metadata games →
   ∃ k, k ∈ public_fields ∧ available_games games = Raise (KeyError k)) ∧
  (Forall has_metadata games → ¬ Forall json_metadata games →
   available_games games = Raise (TypeError "not JSON serializable")).
Proof.
  assert (Hraise : ¬ Forall has_metadata games →
    ∃ k, k ∈ public_fields ∧ available_games games = Raise (KeyError k)).
  { intros Hnot. unfold available_games.
    destruct (collect_missing_metadata games [] Hnot) as (k & Hk & Hc).
    rewrite Hc. exists k. split; [exact Hk|]. reflexivity. }
  assert (Hjson : Forall has_metadata games →
    ∃ out, Forall2 shows games out ∧
      available_games games = jsonify (PDict (<["games" := PList out]> ∅))).
  { intros Hall. unfold available_games.
    destruct (collect_has_metadata games [] Hall) as (out & Hc & Hout).
    exists out. split; [exact Hout|]. rewrite Hc. cbn [bind app]. reflexivity. }
  split; [|split; [exact Hraise|]].
  - split.
    + intros [v Hv].
      assert (Hdec : Decision (Forall has_metadata games)).
      { apply Forall_dec. intros game. unfold has_metadata. apply _. }
      destruct Hdec as [Hall|Hnot].
      2:{ destruct (Hraise Hnot) as (k & _ & Hk). rewrite Hk in Hv. discriminate Hv. }
      split; [exact Hall|]. destruct (Hjson Hall) as (out & Hout & Ha).
      apply (response_serialisable games out Hout).
      rewrite Ha in Hv. unfold jsonify in Hv.
      destruct (serialisable (PDict (<["games":=PList out]> ∅))); [reflexivity|discriminate Hv].
    + intros [Hall Hj]. destruct (Hjson Hall) as (out & Hout & Ha).
      rewrite Ha, PyFacts.jsonify_returns. { eexists. reflexivity. }
      apply (response_serialisable games out Hout). exact Hj.
  - intros Hall Hnj. destruct (Hjson Hall) as (out & Hout & Ha).
    rewrite Ha. apply PyFacts.jsonify_raises.
    destruct (serialisable (PDict (<["games":=PList out]> ∅))) eqn:Hs; [|reflexivity].
    destruct Hnj. apply (response_serialisable games out Hout). exact Hs.
Qed.

End AppMore.
